(** * Fibonacci-mod-m orbit enumeration: a shallow embedding of
    [src/fibonacci_mod.cpp] and the properties of its specification.

    Integers of type [int64] are modelled in [Z]; signed overflow is
    undefined in C++, so results about a whole enumeration carry the
    hypothesis that the products the function computes in [int64] are
    representable ([int64_exact]).  The one [size_t] expression whose value
    matters, the iteration cap, has its wrap-around modulo 2^64 written out.
    [std::unordered_set] and [std::unordered_map] are modelled by [gset] and
    [gmap]: [PairHash] only selects buckets, membership is decided by
    equality of pairs.  The progress messages go to the diagnostic stream
    and are not part of the model. *)

From Stdlib Require Import Ascii.
From stdpp Require Import gmap strings list sorting pretty.

Local Open Scope Z_scope.

(** ** Data *)

(** [using Pair = std::pair<int64, int64>] *)
Abbreviation Pair := (Z * Z)%type.

Definition int64_max : Z := 2 ^ 63 - 1.
Definition size_t_modulus : Z := 2 ^ 64.

(** [base * base * 2] (line 61) is the largest value the function computes
    in [int64]; when it is representable so is every other signed
    expression of [computeModCycles]. *)
Definition int64_exact (base : Z) : Prop := base * base * 2 <= int64_max.

(** ** Comparison and canonical rotation *)

Definition comparePairs (a b : Pair) : Z :=
  if bool_decide (a.1 ≠ b.1) then (if bool_decide (a.1 < b.1) then -1 else 1)
  else if bool_decide (a.2 ≠ b.2) then (if bool_decide (a.2 < b.2) then -1 else 1)
  else 0.

(** [cycle[i]] for an index in range. *)
Definition at_index (cycle : list Pair) (i : nat) : Pair :=
  default (0, 0) (cycle !! i).

Definition findMinCycleIndex (cycle : list Pair) : nat :=
  foldl (λ minIdx i,
           if bool_decide (comparePairs (at_index cycle i) (at_index cycle minIdx) < 0)
           then i else minIdx)
        0%nat (seq 1 (length cycle - 1)).

Definition canonicalCycle (cycle : list Pair) : list Pair :=
  match cycle with
  | [] => []
  | _ =>
      let minIdx := findMinCycleIndex cycle in
      (λ i, at_index cycle ((minIdx + i) `mod` length cycle)%nat)
        <$> seq 0 (length cycle)
  end.

(** ** The traversal from one starting pair *)

(** [nextA = current.second; nextB = (current.first + current.second) % base];
    [%] truncates towards zero. *)
Definition next_state (base : Z) (current : Pair) : Pair :=
  (current.2, (current.1 + current.2) `rem` base).

(** [static_cast<size_t>(base) * base * 2 + 1000], in [size_t]. *)
Definition maxIterations (base : Z) : Z :=
  (base * base * 2 + 1000) `mod` size_t_modulus.

(** What the [while] loop leaves behind: the path, the counter
    [iterations], and the cycle cut out of the path when the loop left
    through the [seenIndex] hit ([None] when the loop condition
    [iterations < maxIterations] ended it). *)
Record traversal := Traversal {
  t_path : list Pair;
  t_cycle : option (list Pair);
  t_iterations : nat;
}.

(** The loop; [remaining] is [maxIterations - iterations], so that the loop
    condition [iterations < maxIterations] reads [remaining ≠ 0]. *)
Fixpoint traverse_loop (base : Z) (remaining iterations : nat) (path : list Pair)
    (seenIndex : gmap Pair nat) (current : Pair) : traversal :=
  match remaining with
  | O => Traversal path None iterations
  | S remaining' =>
      match seenIndex !! current with
      | Some start => Traversal path (Some (drop start path)) iterations
      | None =>
          traverse_loop base remaining' (S iterations) (path ++ [current])
            (<[current := length path]> seenIndex) (next_state base current)
      end
  end.

Definition traverse (base : Z) (start : Pair) : traversal :=
  traverse_loop base (Z.to_nat (maxIterations base)) 0 [] ∅ start.

(** ** The scan over all starting pairs *)

Record scan_state := ScanState {
  visited : gset Pair;
  rawCycles : list (list Pair);
}.

(** Body of the inner [for] loop (lines 75-119). *)
Definition visit_start (base : Z) (st : scan_state) (key : Pair) : scan_state :=
  if bool_decide (key ∈ visited st) then st
  else
    let t := traverse base key in
    let raw :=
      match t_cycle t with
      | Some ((_ :: _) as cycle) => rawCycles st ++ [canonicalCycle cycle]
      | _ => rawCycles st
      end in
    ScanState (visited st ∪ list_to_set (t_path t)) raw.

Definition scan_row (base a0 : Z) (st : scan_state) : scan_state :=
  foldl (λ st b0, visit_start base st (a0, b0)) st (seqZ 0 base).

Definition scan (base : Z) : scan_state :=
  foldl (λ st a0, scan_row base a0 st) (ScanState ∅ []) (seqZ 0 base).

(** ** Deduplication and projection *)

(** [std::to_string] of an [int64]: decimal digits, with a leading minus
    sign for negative numbers. *)
Definition to_string (z : Z) : string := pretty z.

(** The key of a cycle: [first,second;] for each pair, appended in turn. *)
Definition cycle_key (cycle : list Pair) : string :=
  foldl (λ key p, key +:+ to_string p.1 +:+ "," +:+ to_string p.2 +:+ ";")
        "" cycle.

Record outputs := Outputs {
  sequences : list (list Z);
  cyclesPairs : list (list Pair);
}.

Definition dedup_step (acc : gset string * outputs) (cycle : list Pair)
    : gset string * outputs :=
  let key := cycle_key cycle in
  if bool_decide (key ∈ acc.1) then acc
  else ({[key]} ∪ acc.1,
        Outputs (sequences acc.2 ++ [fst <$> cycle])
                (cyclesPairs acc.2 ++ [cycle])).

Definition dedup (raw : list (list Pair)) (out : outputs) : outputs :=
  (foldl dedup_step (∅, out) raw).2.

(** [computeModCycles(base, sequences, cyclesPairs)]: the two vectors are
    passed by reference and appended to. *)
Definition computeModCycles (base : Z) (out : outputs) : outputs :=
  if bool_decide (base <= 0) then out
  else dedup (rawCycles (scan base)) out.

(** ** The program around the enumeration *)

(** What [outputJSON] prints: the fields of the JSON object. *)
Record report := Report {
  r_base : Z;
  r_sequence_count : nat;
  r_sequences : list (list Z);
  r_cycles_pairs : list (list Pair);
}.

Definition outputJSON (base : Z) (sequences : list (list Z))
    (cyclesPairs : list (list Pair)) : report :=
  Report base (length sequences) sequences cyclesPairs.

(** A run of the program: the exit status, whether the invalid-modulus
    error message was written to the diagnostic stream, and what went to the
    standard output.  The other diagnostic messages are left out. *)
Record run := Run {
  exit_status : Z;
  error_reported : bool;
  stdout : option report;
}.

(** [main], from the point where [argv[1]] has been parsed into [base]. *)
Definition main (base : Z) : run :=
  if bool_decide (base <= 0) then Run 1 true None
  else
    let out := computeModCycles base (Outputs [] []) in
    Run 0 false (Some (outputJSON base (sequences out) (cyclesPairs out))).

(** How a call of a C++ function ends: it returns, or it leaves with an
    exception. *)
Inductive completion (A : Type) : Type :=
  | Returns (a : A)
  | Throws_invalid_argument.
Arguments Returns {A} a.
Arguments Throws_invalid_argument {A}.

(** A call of [computeModCycles] as its caller sees it: the function has
    no [throw] and its guard is a plain [return], so every call returns. *)
Definition call_computeModCycles (base : Z) (out : outputs)
    : completion outputs :=
  Returns (computeModCycles base out).

(** ** Notions used to state the properties *)

(** Strict lexicographic order on pairs, the order [comparePairs] decides. *)
Definition pair_lt (a b : Pair) : Prop :=
  a.1 < b.1 ∨ (a.1 = b.1 ∧ a.2 < b.2).

#[global] Instance pair_lt_dec : RelDecision pair_lt.
Proof. intros a b. unfold pair_lt. apply _. Defined.

(** The value of [minIdx] after the loop of [findMinCycleIndex] has
    handled the indices [1..k]. *)
Definition min_scan (cycle : list Pair) (k : nat) : nat :=
  foldl (λ minIdx i,
           if bool_decide (comparePairs (at_index cycle i) (at_index cycle minIdx) < 0)
           then i else minIdx)
        0%nat (seq 1 k).

(** Both components lie in [[0, base)]. *)
Definition in_range (base : Z) (p : Pair) : Prop :=
  (0 <= p.1 < base) ∧ (0 <= p.2 < base).

(** The starting pairs in the order of the two nested [for] loops:
    [a0] outer, [b0] inner. *)
Definition row_major (base : Z) : list Pair :=
  a0 ← seqZ 0 base; (λ b0, (a0, b0)) <$> seqZ 0 base.

(** The state reached from [s] after [n] transitions, and the first [n]
    states of the trajectory of [s]. *)
Definition iter_state (base : Z) (s : Pair) (n : nat) : Pair :=
  Nat.iter n (next_state base) s.

Definition iter_path (base : Z) (s : Pair) (n : nat) : list Pair :=
  iter_state base s <$> seq 0 n.

(** [seenIndex] records the position of each of the first [n] states of
    the trajectory of [s]. *)
Definition seen_inv (base : Z) (s : Pair) (n : nat)
    (seenIndex : gmap Pair nat) : Prop :=
  ∀ p i, seenIndex !! p = Some i ↔ (i < n)%nat ∧ iter_state base s i = p.

(** The scan with a record of its traversals: for every start that is
    not skipped, the start and the [path] built from it.  The record is
    not part of the program; [scan_log_erase] shows that the scan itself is
    unchanged. *)
Definition visit_log (base : Z) (acc : scan_state * list (Pair * list Pair))
    (key : Pair) : scan_state * list (Pair * list Pair) :=
  (visit_start base acc.1 key,
   if bool_decide (key ∈ visited acc.1) then acc.2
   else acc.2 ++ [(key, t_path (traverse base key))]).

Definition scan_row_log (base a0 : Z) (acc : scan_state * list (Pair * list Pair))
    : scan_state * list (Pair * list Pair) :=
  foldl (λ acc b0, visit_log base acc (a0, b0)) acc (seqZ 0 base).

Definition scan_log (base : Z) : scan_state * list (Pair * list Pair) :=
  foldl (λ acc a0, scan_row_log base a0 acc) (ScanState ∅ [], []) (seqZ 0 base).

(** The traversal paths of one run, in the order of their starts. *)
Definition traversal_paths (base : Z) : list (list Pair) :=
  snd <$> (scan_log base).2.

(** The starts that were not skipped. *)
Definition traversal_starts (base : Z) : list Pair :=
  fst <$> (scan_log base).2.

(** Invariant of the scan when the loops have reached the start [pos]. *)
Record scan_inv (base : Z) (pos : Pair) (st : scan_state)
    (log : list (Pair * list Pair)) : Prop := ScanInv {
  inv_range : ∀ p, p ∈ visited st → in_range base p;
  inv_closed : ∀ p, p ∈ visited st → next_state base p ∈ visited st;
  inv_done : ∀ p, in_range base p → pair_lt p pos → p ∈ visited st;
  inv_visited : ∀ p, p ∈ visited st ↔ p ∈ mjoin (snd <$> log);
  inv_nodup : NoDup (mjoin (snd <$> log));
  inv_raw : rawCycles st = snd <$> log;
  inv_entries :
    Forall (λ e, pair_lt e.1 pos
                 ∧ e.2 = t_path (traverse base e.1)
                 ∧ canonicalCycle e.2 = e.2
                 ∧ head e.2 = Some e.1) log;
  inv_sorted : StronglySorted pair_lt (fst <$> log);
}.

(** What one element contributes to the key of a cycle. *)
Definition key_item (p : Pair) : string :=
  to_string p.1 +:+ "," +:+ to_string p.2 +:+ ";".

(** The string contains neither of the two separators of a key. *)
Fixpoint sep_free (s : string) : Prop :=
  match s with
  | EmptyString => True
  | String c s' => c ≠ ","%char ∧ c ≠ ";"%char ∧ sep_free s'
  end.

(** The deduplication as the specification words it: a cycle is retained
    when no equal cycle was seen before it, and the retained cycles keep
    the order in which they were seen. *)
Fixpoint first_seen_from (seen raw : list (list Pair)) : list (list Pair) :=
  match raw with
  | [] => []
  | cycle :: raw' =>
      if bool_decide (cycle ∈ seen) then first_seen_from seen raw'
      else cycle :: first_seen_from (cycle :: seen) raw'
  end.

Definition first_seen (raw : list (list Pair)) : list (list Pair) :=
  first_seen_from [] raw.

(** ** The hash of a pair *)

(** Conversion of an [int64] to [unsigned long long], and back. *)
Definition to_uint64 (z : Z) : Z := z `mod` size_t_modulus.

Definition to_int64 (z : Z) : Z :=
  (z + 2 ^ 63) `mod` size_t_modulus - 2 ^ 63.

(** The argument [p.first * 1000003ULL + p.second] of [std::hash<int64>]:
    the product and the sum are taken in [unsigned long long], and the
    result is converted to [int64]. *)
Definition PairHash_arg (p : Pair) : Z :=
  to_int64 (((to_uint64 p.1 * 1000003) `mod` size_t_modulus + to_uint64 p.2)
              `mod` size_t_modulus).

(** [PairHash::operator()]; [std::hash<int64>] belongs to the standard
    library and is a parameter here. *)
Definition PairHash (std_hash : Z → Z) (p : Pair) : Z :=
  std_hash (PairHash_arg p).

(** ** The text [outputJSON] writes *)

(** The double quote and the line break of [std::endl]. *)
Definition dquote : string := String "034"%char "".
Definition endl : string := String "010"%char "".

(** [v.size() - 1], computed in [size_t]. *)
Definition size_minus_one (n : nat) : Z :=
  (Z.of_nat n - 1) `mod` size_t_modulus.

(** The shape of the four printing loops: for each index [j] the item
    [v[j]], then the separator if [j < v.size() - 1], then [after] (the
    [endl] of the outer loops, nothing in the inner ones). *)
Definition print_loop {A} (item : A → string) (sep after : string)
    (v : list A) (out : string) : string :=
  foldl (λ out j,
           match v !! j with
           | Some x =>
               out +:+ item x
                   +:+ (if bool_decide (Z.of_nat j < size_minus_one (length v))
                        then sep else "")
                   +:+ after
           | None => out
           end)
        out (seq 0 (length v)).

Definition print_sequence (sequence : list Z) : string :=
  print_loop to_string ", " "" sequence "    [" +:+ "]".

Definition print_pair (p : Pair) : string :=
  "[" +:+ to_string p.1 +:+ ", " +:+ to_string p.2 +:+ "]".

Definition print_cycle (cycle : list Pair) : string :=
  print_loop print_pair ", " "" cycle "    [" +:+ "]".

(** Everything [outputJSON] sends to [std::cout]. *)
Definition outputJSON_text (base : Z) (sequences : list (list Z))
    (cyclesPairs : list (list Pair)) : string :=
  let out := "{" +:+ endl in
  let out := out +:+ "  " +:+ dquote +:+ "base" +:+ dquote +:+ ": "
                 +:+ to_string base +:+ "," +:+ endl in
  let out := out +:+ "  " +:+ dquote +:+ "sequence_count" +:+ dquote +:+ ": "
                 +:+ to_string (Z.of_nat (length sequences)) +:+ "," +:+ endl in
  let out := out +:+ "  " +:+ dquote +:+ "sequences" +:+ dquote +:+ ": ["
                 +:+ endl in
  let out := print_loop print_sequence "," endl sequences out in
  let out := out +:+ "  ]," +:+ endl in
  let out := out +:+ "  " +:+ dquote +:+ "cycles_pairs" +:+ dquote +:+ ": ["
                 +:+ endl in
  let out := print_loop print_cycle "," endl cyclesPairs out in
  let out := out +:+ "  ]" +:+ endl in
  out +:+ "}" +:+ endl.

(** The size of a vector is a [size_t]. *)
Definition fits_size_t {A} (v : list A) : Prop :=
  Z.of_nat (length v) < size_t_modulus.

(** Rows of an array, one per line: joined by a comma and a line break,
    with a line break after the last one. *)
Definition joined_rows (rows : list string) : string :=
  String.concat ("," +:+ endl) rows
    +:+ (match rows with [] => "" | _ => endl end).

(** ** Further notions used to state the properties *)

(** The state before [p]: the transition undone. *)
Definition prev_state (base : Z) (p : Pair) : Pair :=
  ((p.2 - p.1) `mod` base, p.1).

(** The Fibonacci numbers. *)
Fixpoint fib (n : nat) : Z :=
  match n with
  | O => 0
  | S n' => match n' with
            | O => 1
            | S n'' => fib n'' + fib n'
            end
  end.

(** * Canonical rotation *)

Lemma comparePairs_lt a b : comparePairs a b < 0 ↔ pair_lt a b.
Proof.
  unfold comparePairs, pair_lt.
  repeat case_bool_decide; lia.
Qed.

Lemma pair_lt_trichotomy a b : pair_lt a b ∨ a = b ∨ pair_lt b a.
Proof.
  unfold pair_lt. destruct a as [a1 a2], b as [b1 b2]; simpl.
  destruct (decide (a1 = b1)), (decide (a2 = b2)); subst; auto; lia.
Qed.

Lemma at_index_lookup (cycle : list Pair) i :
  (i < length cycle)%nat → cycle !! i = Some (at_index cycle i).
Proof.
  intros Hi. unfold at_index.
  destruct (lookup_lt_is_Some_2 cycle i Hi) as [x ->]. done.
Qed.

Lemma min_scan_S cycle k :
  min_scan cycle (S k) =
    if bool_decide (pair_lt (at_index cycle (S k)) (at_index cycle (min_scan cycle k)))
    then S k else min_scan cycle k.
Proof.
  unfold min_scan. rewrite seq_S, foldl_snoc. simpl.
  by rewrite (bool_decide_ext _ _ (comparePairs_lt _ _)).
Qed.

Lemma min_scan_spec cycle k :
  let j := min_scan cycle k in
  (j ≤ k)%nat
  ∧ (∀ i, (i ≤ k)%nat → ¬ pair_lt (at_index cycle i) (at_index cycle j))
  ∧ (∀ i, (i < j)%nat → pair_lt (at_index cycle j) (at_index cycle i)).
Proof.
  induction k as [|k (Hle & Hmin & Hfirst)]; cbv zeta.
  - change (min_scan cycle 0) with 0%nat. split; [lia|split]; [|intros; lia].
    intros i Hi. replace i with 0%nat by lia. unfold pair_lt. lia.
  - rewrite min_scan_S. case_bool_decide as Hlt.
    + split; [lia|split].
      * intros i Hi. destruct (decide (i = S k)) as [->|]; [unfold pair_lt; lia|].
        specialize (Hmin i ltac:(lia)). unfold pair_lt in *. lia.
      * intros i Hi. specialize (Hmin i ltac:(lia)). unfold pair_lt in *. lia.
    + split; [lia|split]; [|done].
      intros i Hi. destruct (decide (i = S k)) as [->|]; [done|].
      apply Hmin. lia.
Qed.

Lemma findMinCycleIndex_scan cycle :
  findMinCycleIndex cycle = min_scan cycle (length cycle - 1).
Proof. done. Qed.

(** [findMinCycleIndex] returns the first position of a least pair. *)
Lemma findMinCycleIndex_spec cycle :
  cycle ≠ [] →
  let j := findMinCycleIndex cycle in
  (j < length cycle)%nat
  ∧ (∀ i, (i < length cycle)%nat → ¬ pair_lt (at_index cycle i) (at_index cycle j))
  ∧ (∀ i, (i < j)%nat → pair_lt (at_index cycle j) (at_index cycle i)).
Proof.
  intros Hne. rewrite findMinCycleIndex_scan.
  destruct (min_scan_spec cycle (length cycle - 1)) as (Hle & Hmin & Hfirst).
  assert (0 < length cycle)%nat by (destruct cycle; [done|simpl; lia]).
  split; [lia|split]; [|done].
  intros i Hi. apply Hmin. lia.
Qed.

(** A position whose pair is below all others is the one returned. *)
Lemma findMinCycleIndex_unique cycle j :
  (j < length cycle)%nat →
  (∀ i, (i < length cycle)%nat → i ≠ j →
        pair_lt (at_index cycle j) (at_index cycle i)) →
  findMinCycleIndex cycle = j.
Proof.
  intros Hj Hlt.
  assert (cycle ≠ []) as Hne by (destruct cycle; [simpl in Hj; lia|done]).
  destruct (findMinCycleIndex_spec cycle Hne) as (Hk & Hmin & _).
  destruct (decide (findMinCycleIndex cycle = j)) as [|Hne']; [done|].
  destruct (Hmin j Hj). by apply Hlt.
Qed.

Lemma findMinCycleIndex_head cycle :
  (∀ i, (i < length cycle)%nat → ¬ pair_lt (at_index cycle i) (at_index cycle 0)) →
  findMinCycleIndex cycle = 0%nat.
Proof.
  intros Hmin. destruct cycle as [|p cycle]; [done|].
  destruct (findMinCycleIndex_spec (p :: cycle) ltac:(done)) as (Hk & _ & Hfirst).
  destruct (findMinCycleIndex (p :: cycle)) as [|j] eqn:Hj; [done|].
  destruct (Hmin (S j) Hk). apply Hfirst. lia.
Qed.

Lemma rotate_nat_add_mod (n i len : nat) :
  rotate_nat_add n i len = ((n + i) `mod` len)%nat.
Proof.
  unfold rotate_nat_add.
  by rewrite <-Nat2Z.inj_add, <-Nat2Z.inj_mod, Nat2Z.id.
Qed.

Lemma canonicalCycle_unfold cycle :
  cycle ≠ [] →
  canonicalCycle cycle =
    (λ i, at_index cycle ((findMinCycleIndex cycle + i) `mod` length cycle)%nat)
      <$> seq 0 (length cycle).
Proof. by destruct cycle. Qed.

Lemma length_pos_nonempty {A} (l : list A) : l ≠ [] → (0 < length l)%nat.
Proof. destruct l; [done|simpl; lia]. Qed.

(** The loop of [canonicalCycle] builds the rotation by [minIdx]. *)
Lemma canonicalCycle_rotate cycle :
  canonicalCycle cycle = rotate (findMinCycleIndex cycle) cycle.
Proof.
  destruct (decide (cycle = [])) as [->|Hne]; [done|].
  rewrite canonicalCycle_unfold by done.
  pose proof (length_pos_nonempty cycle Hne) as Hlen.
  apply list_eq. intros i. rewrite list_lookup_fmap.
  destruct (decide (i < length cycle)%nat) as [Hi|Hi].
  - rewrite lookup_seq_lt by done. cbn [fmap option_fmap option_map Nat.add].
    rewrite lookup_rotate_r by done. rewrite rotate_nat_add_mod.
    symmetry. apply at_index_lookup. apply Nat.mod_upper_bound. lia.
  - rewrite lookup_seq_ge by lia. symmetry.
    apply lookup_ge_None. rewrite length_rotate. lia.
Qed.

Lemma rotate_rotate {A} (a b : nat) (l : list A) :
  rotate a (rotate b l) = rotate (b + a) l.
Proof.
  destruct (decide (l = [])) as [->|Hne].
  { unfold rotate. rewrite !drop_nil, !take_nil. cbn [app].
    by rewrite drop_nil, take_nil. }
  pose proof (length_pos_nonempty l Hne) as Hlen.
  apply list_eq. intros i.
  destruct (decide (i < length l)%nat) as [Hi|Hi].
  - rewrite (lookup_rotate_r (rotate b l)) by (by rewrite length_rotate).
    rewrite length_rotate, lookup_rotate_r
      by (rewrite rotate_nat_add_mod; apply Nat.mod_upper_bound; lia).
    rewrite (lookup_rotate_r l) by done.
    f_equal. rewrite !rotate_nat_add_mod.
    rewrite Nat.Div0.add_mod_idemp_r. f_equal. lia.
  - rewrite !(proj2 (lookup_ge_None _ _)); rewrite ?length_rotate; [done|lia..].
Qed.


Lemma rotate_0 {A} (l : list A) : rotate 0 l = l.
Proof.
  unfold rotate. destruct l; [done|].
  rewrite Nat.Div0.mod_0_l. simpl. by rewrite app_nil_r.
Qed.

Lemma rotate_mod {A} (a b : nat) (l : list A) :
  (a `mod` length l = b `mod` length l)%nat → rotate a l = rotate b l.
Proof. unfold rotate. by intros ->. Qed.

Lemma at_index_rotate cycle (n i : nat) :
  (i < length cycle)%nat →
  at_index (rotate n cycle) i = at_index cycle (rotate_nat_add n i (length cycle)).
Proof. intros Hi. unfold at_index. by rewrite lookup_rotate_r. Qed.

Lemma length_canonicalCycle cycle : length (canonicalCycle cycle) = length cycle.
Proof. by rewrite canonicalCycle_rotate, length_rotate. Qed.

Lemma canonicalCycle_Permutation cycle : canonicalCycle cycle ≡ₚ cycle.
Proof.
  rewrite canonicalCycle_rotate. unfold rotate.
  by rewrite Permutation_app_comm, take_drop.
Qed.

(** The first pair of a canonical cycle is a least pair of it. *)
Lemma canonicalCycle_head_min cycle i :
  (i < length cycle)%nat →
  ¬ pair_lt (at_index (canonicalCycle cycle) i) (at_index (canonicalCycle cycle) 0).
Proof.
  intros Hi.
  assert (cycle ≠ []) as Hne by (destruct cycle; [simpl in Hi; lia|done]).
  pose proof (length_pos_nonempty cycle Hne) as Hlen.
  destruct (findMinCycleIndex_spec cycle Hne) as (Hj & Hmin & _).
  rewrite canonicalCycle_rotate, !at_index_rotate by done.
  rewrite (rotate_nat_add_0 _ _ Hj). apply Hmin, rotate_nat_add_lt. lia.
Qed.

(** ** Claim C9 *)

(** C9: canonicalization is idempotent: canonicalizing an already canonical
    cycle returns it unchanged. *)
Theorem canonicalCycle_idempotent (cycle : list Pair) :
  canonicalCycle (canonicalCycle cycle) = canonicalCycle cycle.
Proof.
  rewrite (canonicalCycle_rotate (canonicalCycle cycle)).
  rewrite findMinCycleIndex_head; [apply rotate_0|].
  intros i Hi. rewrite length_canonicalCycle in Hi.
  by apply canonicalCycle_head_min.
Qed.

(** ** Claim C4 *)

(** C4 as stated fails when the least pair occurs twice: the two
    rotations below both start with [(0,0)] and are left as they are. *)
Lemma canonicalCycle_rotation_counterexample :
  let cycle := [(0, 0); (1, 1); (0, 0); (2, 2)] in
  cycle ≠ [] ∧ canonicalCycle (rotate 2 cycle) ≠ canonicalCycle cycle.
Proof. split; [done|]. vm_compute. discriminate. Qed.

(** Rotating a cycle moves its single least position, and the
    canonical rotation undoes the move. *)
Lemma canonicalCycle_rotate_least (cycle : list Pair) (k j : nat) :
  (j < length cycle)%nat →
  (∀ i, (i < length cycle)%nat → i ≠ j →
        pair_lt (at_index cycle j) (at_index cycle i)) →
  canonicalCycle (rotate k cycle) = rotate j cycle.
Proof.
  intros Hj Hlt. set (n := length cycle).
  assert (0 < n)%nat as Hn by lia.
  rewrite canonicalCycle_rotate.
  rewrite (findMinCycleIndex_unique (rotate k cycle) (rotate_nat_sub k j n)).
  - rewrite rotate_rotate. apply rotate_mod.
    rewrite <-rotate_nat_add_mod, rotate_nat_add_sub by done.
    by rewrite Nat.mod_small.
  - rewrite length_rotate. by apply rotate_nat_sub_lt.
  - rewrite length_rotate. intros i Hi Hne.
    rewrite !at_index_rotate by (done || by apply rotate_nat_sub_lt).
    rewrite rotate_nat_add_sub by done.
    apply Hlt; [by apply rotate_nat_add_lt|].
    intros Heq. apply Hne. subst n. rewrite <-Heq.
    by rewrite rotate_nat_sub_add.
Qed.

(** C4 (amended): canonicalization is rotation-invariant on every cycle
    whose least pair occurs at a single position [j]: all rotations of such
    a cycle canonicalize to the same list. *)
Theorem canonicalCycle_rotation_invariant (cycle : list Pair) (k j : nat) :
  (j < length cycle)%nat →
  (∀ i, (i < length cycle)%nat → i ≠ j →
        pair_lt (at_index cycle j) (at_index cycle i)) →
  canonicalCycle (rotate k cycle) = canonicalCycle cycle.
Proof.
  intros Hj Hlt.
  rewrite (canonicalCycle_rotate_least cycle k j Hj Hlt).
  by rewrite canonicalCycle_rotate, (findMinCycleIndex_unique cycle j Hj Hlt).
Qed.

(** In particular on cycles without repeated pairs, the only ones the
    traversal cuts out. *)
Lemma NoDup_least_position cycle :
  cycle ≠ [] → NoDup cycle →
  let j := findMinCycleIndex cycle in
  (j < length cycle)%nat ∧
  ∀ i, (i < length cycle)%nat → i ≠ j →
       pair_lt (at_index cycle j) (at_index cycle i).
Proof.
  intros Hne Hnd. destruct (findMinCycleIndex_spec cycle Hne) as (Hj & Hmin & _).
  split; [done|]. intros i Hi Hij.
  destruct (pair_lt_trichotomy (at_index cycle (findMinCycleIndex cycle))
              (at_index cycle i)) as [?|[Heq|Hgt]]; [done| |by destruct (Hmin i)].
  destruct Hij. eapply NoDup_lookup; [done|by apply at_index_lookup|].
  rewrite <-Heq. by apply at_index_lookup.
Qed.

Lemma canonicalCycle_rotation_NoDup (cycle : list Pair) (k : nat) :
  NoDup cycle → canonicalCycle (rotate k cycle) = canonicalCycle cycle.
Proof.
  intros Hnd. destruct (decide (cycle = [])) as [->|Hne].
  { unfold rotate. by rewrite drop_nil, take_nil. }
  destruct (NoDup_least_position cycle Hne Hnd) as [Hj Hlt].
  rewrite (canonicalCycle_rotate_least cycle k _ Hj Hlt).
  by rewrite canonicalCycle_rotate.
Qed.

Lemma canonicalCycle_rotation_invariant_witness :
  let cycle : list Pair := [(1, 2); (2, 0); (0, 2); (2, 2); (2, 1)] in
  (2 < length cycle)%nat
  ∧ (∀ i, (i < length cycle)%nat → i ≠ 2%nat →
          pair_lt (at_index cycle 2) (at_index cycle i))
  ∧ canonicalCycle (rotate 2 cycle) = canonicalCycle cycle.
Proof.
  intros cycle.
  assert (2 < length cycle)%nat as Hj by (simpl; lia).
  assert (∀ i, (i < length cycle)%nat → i ≠ 2%nat →
               pair_lt (at_index cycle 2) (at_index cycle i)) as Hlt.
  { intros i Hi Hne. simpl in Hi.
    do 5 (destruct i as [|i];
          [first [done | unfold pair_lt, at_index; simpl; lia] |]).
    lia. }
  split; [exact Hj|]. split; [exact Hlt|].
  exact (canonicalCycle_rotation_invariant cycle 2 2 Hj Hlt).
Defined.

(** * The state space and the transition *)

Lemma in_range_row_major base p :
  in_range base p ↔ p ∈ row_major base.
Proof.
  unfold in_range, row_major. destruct p as [a b]; simpl.
  rewrite list_elem_of_bind. split.
  - intros [Ha Hb]. exists a. rewrite elem_of_seqZ. split; [|lia].
    apply list_elem_of_fmap. exists b. rewrite elem_of_seqZ. split; [done|lia].
  - intros (a' & Hin & Ha'). apply list_elem_of_fmap in Hin as (b' & Heq & Hb').
    apply elem_of_seqZ in Ha', Hb'. simplify_eq. lia.
Qed.

Lemma NoDup_row_major base : NoDup (row_major base).
Proof.
  unfold row_major. apply NoDup_bind.
  - intros a a' p _ _ Hin Hin'.
    apply list_elem_of_fmap in Hin as (b & -> & _).
    apply list_elem_of_fmap in Hin' as (b' & Heq & _). by simplify_eq.
  - intros a _. apply NoDup_fmap_2; [|apply NoDup_seqZ]. by intros ?? [=].
  - apply NoDup_seqZ.
Qed.

Lemma length_row_major base :
  length (row_major base) = (Z.to_nat base * Z.to_nat base)%nat.
Proof.
  unfold row_major.
  assert (∀ l : list Z, length (l ≫= λ a0, (λ b0, (a0, b0)) <$> seqZ 0 base)
                        = (length l * Z.to_nat base)%nat) as Hlen.
  { induction l as [|a l IH]; [done|].
    rewrite bind_cons, length_app, IH, length_fmap, length_seqZ. simpl. lia. }
  by rewrite Hlen, length_seqZ.
Qed.

(** Pigeonhole: a list of distinct states has at most [base²] entries. *)
Lemma range_length_bound base (l : list Pair) :
  NoDup l → Forall (in_range base) l →
  (length l ≤ Z.to_nat base * Z.to_nat base)%nat.
Proof.
  intros Hnd Hall. rewrite <-length_row_major.
  apply submseteq_length, NoDup_submseteq; [done|].
  intros p Hp. apply in_range_row_major. by eapply Forall_forall in Hall.
Qed.

Section transition.
Variable base : Z.
Hypothesis base_pos : 0 < base.

Lemma next_state_in_range p :
  in_range base p → in_range base (next_state base p).
Proof.
  unfold in_range, next_state. destruct p as [a b]; simpl. intros [Ha Hb].
  split; [done|]. apply Z.rem_bound_pos; lia.
Qed.

(** On the state space the transition is injective: the previous state
    is determined by the next one. *)
Lemma next_state_inj p q :
  in_range base p → in_range base q →
  next_state base p = next_state base q → p = q.
Proof.
  unfold in_range, next_state. destruct p as [a b], q as [a' b']; simpl.
  intros [Ha Hb] [Ha' Hb'] [= -> Hrem].
  rewrite !Z.rem_mod_nonneg in Hrem by lia.
  f_equal.
  pose proof (Z.div_mod (a + b') base ltac:(lia)) as H1.
  pose proof (Z.div_mod (a' + b') base ltac:(lia)) as H2.
  rewrite Hrem in H1.
  assert ((a + b') `div` base = (a' + b') `div` base) by nia.
  nia.
Qed.

Lemma iter_state_in_range s n :
  in_range base s → in_range base (iter_state base s n).
Proof.
  intros Hs. induction n as [|n IH]; [done|].
  by apply next_state_in_range.
Qed.

Lemma iter_path_in_range s n :
  in_range base s → Forall (in_range base) (iter_path base s n).
Proof.
  intros Hs. apply Forall_fmap, Forall_forall. intros i _.
  by apply iter_state_in_range.
Qed.
End transition.

(** * One traversal *)

Lemma iter_path_S base s n :
  iter_path base s (S n) = iter_path base s n ++ [iter_state base s n].
Proof. unfold iter_path. by rewrite seq_S, fmap_app. Qed.

Lemma length_iter_path base s n : length (iter_path base s n) = n.
Proof. unfold iter_path. by rewrite length_fmap, length_seq. Qed.

Lemma lookup_iter_path base s n i :
  (i < n)%nat → iter_path base s n !! i = Some (iter_state base s i).
Proof.
  intros Hi. unfold iter_path. by rewrite list_lookup_fmap, lookup_seq_lt.
Qed.

Lemma elem_of_iter_path base s n p :
  p ∈ iter_path base s n ↔ ∃ i, (i < n)%nat ∧ iter_state base s i = p.
Proof.
  unfold iter_path. rewrite list_elem_of_fmap. split.
  - intros (i & -> & Hi). apply elem_of_seq in Hi. exists i. split; [lia|done].
  - intros (i & Hi & <-). exists i. split; [done|]. apply elem_of_seq. lia.
Qed.

Lemma iter_state_S base s n :
  iter_state base s (S n) = next_state base (iter_state base s n).
Proof. done. Qed.

Lemma iter_state_add base s n k :
  iter_state base s (n + k) = iter_state base (iter_state base s k) n.
Proof. unfold iter_state. by rewrite Nat.iter_add. Qed.

Section traversal.
Variable base : Z.
Hypothesis base_pos : 0 < base.
Variable s : Pair.
Hypothesis s_in_range : in_range base s.

Lemma path_length_bound n :
  NoDup (iter_path base s n) → (n ≤ Z.to_nat base * Z.to_nat base)%nat.
Proof.
  intros Hnd. rewrite <-(length_iter_path base s n).
  apply range_length_bound; [done|]. by apply iter_path_in_range.
Qed.

(** A state of the path that recurs can only be the first one, because
    the transition is injective. *)
Lemma first_repeat_is_start n i :
  NoDup (iter_path base s n) → (i < n)%nat →
  iter_state base s i = iter_state base s n → i = 0%nat.
Proof.
  intros Hnd Hi Heq. destruct i as [|i]; [done|]. destruct n as [|n]; [lia|].
  rewrite !iter_state_S in Heq.
  apply (next_state_inj base base_pos) in Heq;
    [|by apply iter_state_in_range..].
  assert (i = n); [|lia].
  eapply NoDup_lookup; [done|by apply lookup_iter_path; lia|].
  rewrite Heq. apply lookup_iter_path. lia.
Qed.

(** The loop, started on a repetition-free prefix of the trajectory of
    [s] with more fuel than states, leaves through the [seenIndex] hit; the
    path is then the whole orbit of [s] and the cycle is the whole path. *)
Lemma traverse_loop_closes remaining n seenIndex :
  NoDup (iter_path base s n) → seen_inv base s n seenIndex →
  (Z.to_nat base * Z.to_nat base < n + remaining)%nat →
  ∃ len, (0 < len ≤ Z.to_nat base * Z.to_nat base)%nat
    ∧ NoDup (iter_path base s len)
    ∧ iter_state base s len = s
    ∧ traverse_loop base remaining n (iter_path base s n) seenIndex
        (iter_state base s n)
      = Traversal (iter_path base s len) (Some (iter_path base s len)) len.
Proof.
  revert n seenIndex.
  induction remaining as [|remaining IH]; intros n seenIndex Hnd Hseen Hfuel.
  { pose proof (path_length_bound n Hnd). lia. }
  simpl. destruct (seenIndex !! iter_state base s n) as [start|] eqn:Hlook.
  - apply Hseen in Hlook as [Hstart Heq].
    assert (start = 0%nat) as -> by eauto using first_repeat_is_start.
    exists n. pose proof (path_length_bound n Hnd).
    split_and!; [lia|lia|done|by rewrite <-Heq|done].
  - assert (iter_state base s n ∉ iter_path base s n) as Hfresh.
    { intros (i & Hi & Heq)%elem_of_iter_path.
      assert (seenIndex !! iter_state base s n = Some i) as Hsome
        by (by apply Hseen). congruence. }
    rewrite length_iter_path, <-iter_path_S.
    apply (IH (S n)); [| |lia].
    + rewrite iter_path_S. apply NoDup_app. split_and!; [done| |apply NoDup_singleton].
      intros p Hp ->%list_elem_of_singleton. done.
    + intros p i. destruct (decide (p = iter_state base s n)) as [->|Hne].
      * rewrite lookup_insert_eq. split.
        -- intros [= <-]. split; [lia|done].
        -- intros [Hi Heq]. f_equal.
           destruct (decide (i = n)) as [|Hin]; [done|].
           destruct Hfresh. apply elem_of_iter_path. exists i. split; [lia|done].
      * rewrite lookup_insert_ne by done. rewrite (Hseen p i). split.
        -- intros [? ?]. split; [lia|done].
        -- intros [Hi Heq]. split; [|done].
           destruct (decide (i = n)) as [->|]; [done|lia].
Qed.
End traversal.

Lemma maxIterations_exact base :
  0 < base → int64_exact base → maxIterations base = base * base * 2 + 1000.
Proof.
  unfold int64_exact, int64_max, maxIterations, size_t_modulus. intros Hpos Hex.
  apply Z.mod_small. nia.
Qed.

(** From an in-range start, [traverse] returns the orbit of the start: a
    repetition-free path that the transition closes, and the same list as
    the cycle. *)
Lemma traverse_orbit base s :
  0 < base → int64_exact base → in_range base s →
  ∃ len, (0 < len ≤ Z.to_nat base * Z.to_nat base)%nat
    ∧ NoDup (iter_path base s len)
    ∧ iter_state base s len = s
    ∧ traverse base s
      = Traversal (iter_path base s len) (Some (iter_path base s len)) len.
Proof.
  intros Hpos Hex Hs. unfold traverse.
  apply (traverse_loop_closes base Hpos s Hs _ 0 ∅).
  - apply NoDup_nil_2.
  - intros p i. rewrite lookup_empty. split; [done|]. intros [? _]. lia.
  - rewrite maxIterations_exact by done. nia.
Qed.

(** * The scan *)

Lemma scan_row_log_erase base a0 acc :
  (scan_row_log base a0 acc).1 = scan_row base a0 acc.1.
Proof.
  unfold scan_row_log, scan_row. generalize (seqZ 0 base). intros l.
  revert acc. induction l as [|b l IH]; intros acc; [done|].
  simpl. by rewrite IH.
Qed.

(** Recording the traversals does not change the scan. *)
Lemma scan_log_erase base : (scan_log base).1 = scan base.
Proof.
  unfold scan_log, scan.
  change (ScanState ∅ []) with ((ScanState ∅ [], @nil (Pair * list Pair)).1) at 2.
  generalize (ScanState ∅ [], @nil (Pair * list Pair)).
  generalize (seqZ 0 base). intros l.
  induction l as [|a l IH]; intros acc; [done|].
  simpl. by rewrite IH, scan_row_log_erase.
Qed.

Lemma pair_lt_succ (a b : Z) (p : Pair) :
  pair_lt p (a, b + 1) ↔ pair_lt p (a, b) ∨ p = (a, b).
Proof.
  unfold pair_lt. destruct p as [p1 p2]; simpl. split.
  - intros [?|[-> ?]]; [by auto|].
    destruct (decide (p2 = b)) as [->|]; [by right|left; right; lia].
  - intros [[?|[-> ?]]|[= -> ->]]; [by left|right; lia|right; lia].
Qed.

Lemma closed_iter_state (base : Z) (V : gset Pair) (p : Pair) (k : nat) :
  (∀ q, q ∈ V → next_state base q ∈ V) → p ∈ V → iter_state base p k ∈ V.
Proof.
  intros Hclosed Hp. induction k as [|k IH]; [done|].
  rewrite iter_state_S. by apply Hclosed.
Qed.

Section scan_step.
Variable base : Z.
Hypothesis base_pos : 0 < base.
Hypothesis base_exact : int64_exact base.

(** One execution of the loop body at the start [(a0, b0)]. *)
Lemma visit_log_inv a0 b0 st log :
  in_range base (a0, b0) →
  scan_inv base (a0, b0) st log →
  scan_inv base (a0, b0 + 1) (visit_log base (st, log) (a0, b0)).1
                             (visit_log base (st, log) (a0, b0)).2.
Proof.
  intros Hkey [Hrange Hclosed Hdone Hvis Hnd Hraw Hent Hsorted].
  unfold visit_log, visit_start; simpl.
  case_bool_decide as Hin.
  { split; try done.
    - intros p Hp [Hlt| ->]%pair_lt_succ; [by apply Hdone|done].
    - eapply Forall_impl; [done|]. intros e (Hlt & ?). split; [|done].
      apply pair_lt_succ. by left. }
  destruct (traverse_orbit base (a0, b0) base_pos base_exact Hkey)
    as (len & [Hlen0 Hlen] & Hpnd & Hclose & Htrav).
  rewrite Htrav. set (key := (a0, b0)) in *.
  set (path := iter_path base key len) in *. simpl.
  assert (key ∈ path) as Hkeyin.
  { apply elem_of_iter_path. exists 0%nat. split; [lia|done]. }
  assert (∀ p, p ∈ path → p ∉ visited st) as Hdisj.
  { intros p (i & Hi & <-)%elem_of_iter_path Hp. apply Hin.
    rewrite <-Hclose. replace len with ((len - i) + i)%nat by lia.
    rewrite iter_state_add. by apply closed_iter_state. }
  assert (head path = Some key) as Hhead.
  { unfold path. clear -Hlen0. destruct len; [lia|done]. }
  assert (canonicalCycle path = path) as Hcanon.
  { rewrite canonicalCycle_rotate.
    rewrite (findMinCycleIndex_unique path 0); [apply rotate_0| |].
    - subst path. rewrite length_iter_path. lia.
    - subst path. rewrite length_iter_path. intros i Hi Hne.
      unfold at_index. rewrite !lookup_iter_path by lia. simpl.
      change (iter_state base key 0) with key.
      assert (iter_state base key i ∈ iter_path base key len) as Hp
        by (apply elem_of_iter_path; eauto).
      destruct (pair_lt_trichotomy key (iter_state base key i))
        as [?|[Heq|Hgt]]; [done| |].
      + destruct Hne. eapply NoDup_lookup; [exact Hpnd| |].
        * apply lookup_iter_path. lia.
        * rewrite <-Heq. apply lookup_iter_path. lia.
      + destruct (Hdisj _ Hp). apply Hdone; [|done].
        by apply iter_state_in_range. }
  assert (∃ x l, path = x :: l) as (x & l & Hcons).
  { destruct path; [done|eauto]. }
  rewrite Hcons, <-Hcons, Hcanon.
  split; simpl.
  - intros p [Hp|Hp%elem_of_list_to_set]%elem_of_union; [by apply Hrange|].
    eapply Forall_forall; [by apply iter_path_in_range|done].
  - intros p [Hp|Hp%elem_of_list_to_set]%elem_of_union.
    + apply elem_of_union. left. by apply Hclosed.
    + apply elem_of_union. right. apply elem_of_list_to_set.
      apply elem_of_iter_path in Hp as (i & Hi & <-).
      rewrite <-iter_state_S. apply elem_of_iter_path.
      destruct (decide (S i = len)) as [Heq|Hne].
      * exists 0%nat. split; [lia|]. rewrite Heq. by rewrite Hclose.
      * exists (S i). split; [lia|done].
  - intros p Hp [Hlt| ->]%pair_lt_succ; apply elem_of_union.
    + left. by apply Hdone.
    + right. by apply elem_of_list_to_set.
  - intros p. rewrite fmap_app, join_app, elem_of_union, elem_of_app.
    rewrite elem_of_list_to_set, Hvis. simpl. by rewrite app_nil_r.
  - rewrite fmap_app, join_app. simpl. rewrite app_nil_r.
    apply NoDup_app. split_and!; [done| |done].
    intros p Hp%Hvis Hp'. by apply (Hdisj p).
  - by rewrite fmap_app, Hraw.
  - apply Forall_app. split.
    + eapply Forall_impl; [done|]. intros e (Hlt & ?). split; [|done].
      apply pair_lt_succ. by left.
    + apply Forall_singleton. simpl. split_and!; try done.
      * apply pair_lt_succ. by right.
      * by rewrite Htrav.
  - rewrite fmap_app. simpl. apply StronglySorted_app_2.
    + intros k1 k2 (e & -> & He)%list_elem_of_fmap ->%list_elem_of_singleton.
      eapply Forall_forall in Hent; [|done]. by destruct Hent.
    + done.
    + repeat constructor.
Qed.

Lemma scan_inv_init : scan_inv base (0, 0) (ScanState ∅ []) [].
Proof.
  split; simpl.
  - set_solver.
  - set_solver.
  - intros p [? ?] Hlt. unfold pair_lt in Hlt; simpl in Hlt. lia.
  - set_solver.
  - constructor.
  - done.
  - constructor.
  - constructor.
Qed.

(** The inner loop, after [k] iterations. *)
Lemma scan_row_prefix_inv a0 st log (k : nat) :
  0 <= a0 < base → Z.of_nat k <= base →
  scan_inv base (a0, 0) st log →
  let acc := foldl (λ acc b0, visit_log base acc (a0, b0)) (st, log)
                   (seqZ 0 (Z.of_nat k)) in
  scan_inv base (a0, Z.of_nat k) acc.1 acc.2.
Proof.
  intros Ha0 Hk Hinv. induction k as [|k IH]; [done|]. cbv zeta.
  rewrite seqZ_S, foldl_snoc, Z.add_0_l.
  specialize (IH ltac:(lia)). cbv zeta in IH.
  destruct (foldl _ _ _) as [st' log'].
  replace (Z.of_nat (S k)) with (Z.of_nat k + 1) by lia.
  apply visit_log_inv; [|done]. unfold in_range; simpl. lia.
Qed.

Lemma scan_row_log_inv a0 st log :
  0 <= a0 < base →
  scan_inv base (a0, 0) st log →
  scan_inv base (a0 + 1, 0) (scan_row_log base a0 (st, log)).1
                            (scan_row_log base a0 (st, log)).2.
Proof.
  intros Ha0 Hinv. unfold scan_row_log.
  pose proof (scan_row_prefix_inv a0 st log (Z.to_nat base) Ha0 ltac:(lia) Hinv)
    as Hrow.
  cbv zeta in Hrow. rewrite Z2Nat.id in Hrow by lia.
  destruct (foldl _ _ _) as [st' log']. simpl in *.
  destruct Hrow as [Hrange Hclosed Hdone Hvis Hnd Hraw Hent Hsorted].
  split; try done.
  - intros p Hp Hlt. apply Hdone; [done|].
    destruct Hp as [? ?]. unfold pair_lt in *; simpl in *. lia.
  - eapply Forall_impl; [done|]. intros e (Hlt & ?). split; [|done].
    unfold pair_lt in *; simpl in *. lia.
Qed.

(** The outer loop, after [k] rows. *)
Lemma scan_prefix_inv (k : nat) :
  Z.of_nat k <= base →
  let acc := foldl (λ acc a0, scan_row_log base a0 acc) (ScanState ∅ [], [])
                   (seqZ 0 (Z.of_nat k)) in
  scan_inv base (Z.of_nat k, 0) acc.1 acc.2.
Proof.
  intros Hk. induction k as [|k IH]; [apply scan_inv_init|]. cbv zeta.
  rewrite seqZ_S, foldl_snoc, Z.add_0_l.
  specialize (IH ltac:(lia)). cbv zeta in IH.
  destruct (foldl _ _ _) as [st' log'].
  replace (Z.of_nat (S k)) with (Z.of_nat k + 1) by lia.
  apply scan_row_log_inv; [lia|done].
Qed.

(** The invariant at the end of the scan. *)
Lemma scan_log_inv :
  scan_inv base (base, 0) (scan_log base).1 (scan_log base).2.
Proof.
  pose proof (scan_prefix_inv (Z.to_nat base) ltac:(lia)) as Hinv.
  cbv zeta in Hinv. by rewrite Z2Nat.id in Hinv by lia.
Qed.

(** At the end the visited set is the whole state space ... *)
Lemma scan_visited_all p : p ∈ visited (scan base) ↔ in_range base p.
Proof.
  rewrite <-scan_log_erase. destruct scan_log_inv as [Hrange _ Hdone _ _ _ _ _].
  split; [apply Hrange|]. intros Hp. apply Hdone; [done|].
  destruct Hp as [? ?]. unfold pair_lt; simpl. lia.
Qed.

(** ... the raw cycles are the recorded paths ... *)
Lemma scan_raw_paths : rawCycles (scan base) = traversal_paths base.
Proof.
  rewrite <-scan_log_erase. by destruct scan_log_inv as [_ _ _ _ _ Hraw _ _].
Qed.

(** ... and together they list every state exactly once. *)
Lemma scan_raw_Permutation : mjoin (rawCycles (scan base)) ≡ₚ row_major base.
Proof.
  rewrite scan_raw_paths. unfold traversal_paths.
  destruct scan_log_inv as [_ _ _ Hvis Hnd _ _ _].
  apply NoDup_Permutation; [done|apply NoDup_row_major|].
  intros p. rewrite <-Hvis, scan_log_erase, scan_visited_all.
  apply in_range_row_major.
Qed.

Lemma scan_raw_nonempty : Forall (λ c, c ≠ []) (rawCycles (scan base)).
Proof.
  rewrite scan_raw_paths. unfold traversal_paths.
  destruct scan_log_inv as [_ _ _ _ _ _ Hent _].
  apply Forall_fmap. eapply Forall_impl; [done|].
  intros [k c] (_ & _ & _ & Hhd); simpl in *. by destruct c.
Qed.
End scan_step.

(** * Keys and deduplication *)

Lemma string_app_cons c s1 s2 : String c s1 +:+ s2 = String c (s1 +:+ s2).
Proof. reflexivity. Qed.

Lemma string_app_nil_l s : "" +:+ s = s.
Proof. reflexivity. Qed.

Lemma string_app_nil_r s : s +:+ "" = s.
Proof. induction s as [|c s IH]; [done|]. by rewrite string_app_cons, IH. Qed.

Lemma string_app_assoc (s1 s2 s3 : string) :
  (s1 +:+ s2) +:+ s3 = s1 +:+ (s2 +:+ s3).
Proof.
  induction s1 as [|c s1 IH]; [done|]. by rewrite !string_app_cons, IH.
Qed.

Lemma sep_free_digit x : sep_free (String (pretty_N_char x) "").
Proof. unfold pretty_N_char. repeat case_match; by simpl. Qed.

Lemma sep_free_pretty_N_go x s : sep_free s → sep_free (pretty_N_go x s).
Proof.
  revert s. induction (N.lt_wf_0 x) as [x _ IH]; intros s Hs.
  assert (x = 0 ∨ 0 < x)%N as [->|Hx] by lia.
  - by rewrite pretty_N_go_0.
  - rewrite pretty_N_go_step by done. apply IH.
    + by apply N.div_lt.
    + pose proof (sep_free_digit (x `mod` 10)) as Hd. simpl in *. tauto.
Qed.

Lemma sep_free_pretty_N (x : N) : sep_free (pretty x).
Proof.
  unfold pretty, pretty_N. case_decide; [by simpl|].
  by apply sep_free_pretty_N_go.
Qed.

(** The decimal form of an integer contains no separator. *)
Lemma sep_free_to_string z : sep_free (to_string z).
Proof.
  unfold to_string, pretty, pretty_Z. destruct z as [|x|x].
  - by simpl.
  - apply (sep_free_pretty_N (N.pos x)).
  - simpl. split_and!; [done..|]. apply (sep_free_pretty_N (N.pos x)).
Qed.

Lemma to_string_inj z1 z2 : to_string z1 = to_string z2 → z1 = z2.
Proof. apply pretty_Z_inj. Qed.

(** Two strings cut at their first separator agree piece by piece. *)
Lemma sep_split (c : ascii) s1 s2 r1 r2 :
  c = ","%char ∨ c = ";"%char →
  sep_free s1 → sep_free s2 →
  s1 +:+ String c r1 = s2 +:+ String c r2 → s1 = s2 ∧ r1 = r2.
Proof.
  intros Hc. revert s2.
  induction s1 as [|a s1 IH]; intros [|b s2];
    rewrite ?string_app_cons, ?string_app_nil_l; simpl.
  - by intros _ _ [= ->].
  - intros _ (? & ? & _) [= <- _]. by destruct Hc.
  - intros (? & ? & _) _ [= -> _]. by destruct Hc.
  - intros (_ & _ & H1) (_ & _ & H2) [= -> Heq].
    destruct (IH s2 H1 H2 Heq) as [-> ->]. done.
Qed.

Lemma key_item_inj p q r1 r2 :
  key_item p +:+ r1 = key_item q +:+ r2 → p = q ∧ r1 = r2.
Proof.
  unfold key_item.
  rewrite !string_app_assoc, !string_app_cons, !string_app_nil_l.
  intros Heq.
  apply sep_split in Heq as [H1 Heq]; [|by left|apply sep_free_to_string..].
  apply sep_split in Heq as [H2 Heq]; [|by right|apply sep_free_to_string..].
  apply to_string_inj in H1, H2. destruct p, q; simpl in *. by subst.
Qed.

Lemma cycle_key_from (acc : string) cycle :
  foldl (λ key p, key +:+ to_string p.1 +:+ "," +:+ to_string p.2 +:+ ";")
        acc cycle
  = acc +:+ cycle_key cycle.
Proof.
  unfold cycle_key. revert acc. induction cycle as [|p cycle IH]; intros acc.
  - simpl. by rewrite string_app_nil_r.
  - simpl. rewrite IH, (IH (String.append _ _)).
    by rewrite string_app_nil_l, !string_app_assoc.
Qed.

Lemma cycle_key_cons p cycle :
  cycle_key (p :: cycle) = key_item p +:+ cycle_key cycle.
Proof. unfold cycle_key at 1. simpl. by rewrite cycle_key_from. Qed.

Lemma cycle_key_cons_nonempty p cycle : cycle_key (p :: cycle) ≠ "".
Proof.
  rewrite cycle_key_cons. unfold key_item. rewrite string_app_assoc.
  destruct (to_string p.1);
    [rewrite string_app_nil_l|]; rewrite !string_app_cons; discriminate.
Qed.

(** Equal keys mean equal cycles: the key is an exact sequence-equality
    key. *)
#[global] Instance cycle_key_inj : Inj (=) (=) cycle_key.
Proof.
  intros c1. induction c1 as [|p c1 IH]; intros [|q c2].
  - done.
  - intros Heq. symmetry in Heq. by apply cycle_key_cons_nonempty in Heq.
  - intros Heq. by apply cycle_key_cons_nonempty in Heq.
  - rewrite !cycle_key_cons. intros [-> Heq]%key_item_inj.
    by rewrite (IH c2 Heq).
Qed.

(** The loop over [rawCycles] keeps the first-seen cycles. *)
Lemma dedup_fold raw (seenl : list (list Pair)) (out : outputs) :
  (foldl dedup_step (list_to_set (cycle_key <$> seenl), out) raw).2
  = Outputs (sequences out ++ (fmap (M := list) fst <$> first_seen_from seenl raw))
            (cyclesPairs out ++ first_seen_from seenl raw).
Proof.
  revert seenl out. induction raw as [|cycle raw IH]; intros seenl out.
  - simpl. rewrite !app_nil_r. by destruct out.
  - simpl. unfold dedup_step at 2. simpl.
    rewrite (bool_decide_ext (cycle_key cycle ∈ _) (cycle ∈ seenl)); last first.
    { rewrite elem_of_list_to_set. apply (list_elem_of_fmap_inj cycle_key). }
    case_bool_decide as Hin; [apply IH|].
    change ({[cycle_key cycle]} ∪ list_to_set (cycle_key <$> seenl))
      with (list_to_set (C := gset string) (cycle_key <$> (cycle :: seenl))).
    rewrite IH. simpl. by rewrite <-!app_assoc.
Qed.

Lemma dedup_first_seen raw out :
  dedup raw out
  = Outputs (sequences out ++ (fmap (M := list) fst <$> first_seen raw))
            (cyclesPairs out ++ first_seen raw).
Proof. apply (dedup_fold raw []). Qed.

Lemma first_seen_from_NoDup seenl raw :
  NoDup raw → (∀ c, c ∈ raw → c ∉ seenl) → first_seen_from seenl raw = raw.
Proof.
  revert seenl. induction raw as [|c raw IH]; intros seenl Hnd Hfresh; [done|].
  apply NoDup_cons in Hnd as [Hc Hnd]. simpl.
  rewrite bool_decide_eq_false_2 by (apply Hfresh; left).
  f_equal. apply IH; [done|].
  intros c' Hc' [->|Hin]%elem_of_cons; [done|].
  by apply (Hfresh c'); [right|].
Qed.

Lemma NoDup_join_parts {A} (ls : list (list A)) :
  NoDup (mjoin ls) → Forall (λ l, l ≠ []) ls → NoDup ls.
Proof.
  induction ls as [|l ls IH]; simpl; [constructor|].
  intros (Hl & Hdisj & Hls)%NoDup_app [Hne Hall]%Forall_cons.
  constructor; [|by apply IH].
  intros Hin. destruct l as [|x l]; [done|].
  apply (Hdisj x); [left|]. apply list_elem_of_join. exists (x :: l).
  split; [left|done].
Qed.

(** * The result of [computeModCycles] *)

Lemma sum_list_with_length_join {A} (ls : list (list A)) :
  sum_list_with length ls = length (mjoin ls).
Proof.
  induction ls as [|l ls IH]; simpl; [done|]. by rewrite length_app, IH.
Qed.

(** In a repetition-free concatenation an element determines its part. *)
Lemma NoDup_join_lookup {A} (ls : list (list A)) i j l k x :
  NoDup (mjoin ls) → ls !! i = Some l → ls !! j = Some k →
  x ∈ l → x ∈ k → i = j.
Proof.
  revert i j. induction ls as [|l' ls IH]; intros i j Hnd Hi Hj Hl Hk; [done|].
  simpl in Hnd. apply NoDup_app in Hnd as (_ & Hdisj & Hnd).
  destruct i as [|i], j as [|j]; simplify_eq/=.
  - done.
  - destruct (Hdisj x Hl). apply list_elem_of_join. exists k.
    split; [done|]. by eapply list_elem_of_lookup_2.
  - destruct (Hdisj x Hk). apply list_elem_of_join. exists l.
    split; [done|]. by eapply list_elem_of_lookup_2.
  - f_equal. by eapply IH.
Qed.

Section results.
Variable base : Z.
Hypothesis base_pos : 0 < base.
Hypothesis base_exact : int64_exact base.

Lemma scan_raw_NoDup : NoDup (rawCycles (scan base)).
Proof.
  apply NoDup_join_parts; [|by apply scan_raw_nonempty].
  rewrite scan_raw_Permutation by done. apply NoDup_row_major.
Qed.

(** No raw cycle is dropped by the deduplication: the traversals never
    find the same cycle twice. *)
Lemma computeModCycles_raw :
  computeModCycles base (Outputs [] [])
  = Outputs (fmap (M := list) fst <$> rawCycles (scan base))
            (rawCycles (scan base)).
Proof.
  unfold computeModCycles. rewrite bool_decide_eq_false_2 by lia.
  rewrite dedup_first_seen. unfold first_seen.
  rewrite first_seen_from_NoDup; [done|apply scan_raw_NoDup|].
  intros c _. apply not_elem_of_nil.
Qed.
End results.

(** ** Claim C1 *)

(** C1: for every modulus [base > 0] (in the range where the [int64]
    arithmetic of the function is exact) the returned cycles partition the
    state space: every pair of [[0,base)²] lies in exactly one returned
    cycle, the pairs of the cycles are exactly the pairs of the state space,
    no pair occurs twice, and the lengths add up to [base²]. *)
Theorem computeModCycles_partition (base : Z) :
  0 < base → int64_exact base →
  let cycles := cyclesPairs (computeModCycles base (Outputs [] [])) in
  (∀ p, in_range base p →
        ∃ i cycle, cycles !! i = Some cycle ∧ p ∈ cycle
          ∧ ∀ j cycle', cycles !! j = Some cycle' → p ∈ cycle' → j = i)
  ∧ (∀ p, p ∈ mjoin cycles ↔ in_range base p)
  ∧ NoDup (mjoin cycles)
  ∧ Z.of_nat (sum_list_with length cycles) = base * base.
Proof.
  intros Hpos Hex. rewrite computeModCycles_raw by done. simpl.
  pose proof (scan_raw_Permutation base Hpos Hex) as Hperm.
  assert (NoDup (mjoin (rawCycles (scan base)))) as Hnd.
  { rewrite Hperm. apply NoDup_row_major. }
  assert (∀ p, p ∈ mjoin (rawCycles (scan base)) ↔ in_range base p) as Hcover.
  { intros p. by rewrite Hperm, in_range_row_major. }
  split_and!; [|done|done|].
  - intros p Hp. apply Hcover, list_elem_of_join in Hp as (cycle & Hin & Hcycle).
    apply list_elem_of_lookup in Hcycle as [i Hi].
    exists i, cycle. split_and!; [done..|].
    intros j cycle' Hj Hin'. by eapply NoDup_join_lookup.
  - rewrite sum_list_with_length_join, Hperm, length_row_major. lia.
Qed.

Lemma computeModCycles_partition_witness :
  0 < 3 ∧ int64_exact 3 ∧
  let cycles := cyclesPairs (computeModCycles 3 (Outputs [] [])) in
  (∀ p, in_range 3 p →
        ∃ i cycle, cycles !! i = Some cycle ∧ p ∈ cycle
          ∧ ∀ j cycle', cycles !! j = Some cycle' → p ∈ cycle' → j = i)
  ∧ (∀ p, p ∈ mjoin cycles ↔ in_range 3 p)
  ∧ NoDup (mjoin cycles)
  ∧ Z.of_nat (sum_list_with length cycles) = 3 * 3.
Proof.
  assert (0 < 3) as Hpos by lia.
  assert (int64_exact 3) as Hex by (unfold int64_exact, int64_max; lia).
  split; [exact Hpos|]. split; [exact Hex|].
  exact (computeModCycles_partition 3 Hpos Hex).
Defined.

(** ** Claim C2 *)

Lemma foldl_bind {A B C} (f : A → B → A) (g : C → list B) (l : list C) a :
  foldl f a (l ≫= g) = foldl (λ a x, foldl f a (g x)) a l.
Proof.
  revert a. induction l as [|x l IH]; intros a; [done|].
  by rewrite bind_cons, foldl_app, IH.
Qed.

Lemma scan_rows_flat base (rows : list Z) acc :
  foldl (λ acc a0, scan_row_log base a0 acc) acc rows
  = foldl (visit_log base) acc
      (rows ≫= λ a0, (λ b0, (a0, b0)) <$> seqZ 0 base).
Proof.
  rewrite foldl_bind. revert acc.
  induction rows as [|a0 rows IH]; intros acc; [done|]. simpl.
  rewrite IH. f_equal. unfold scan_row_log. by rewrite foldl_fmap.
Qed.

(** The two nested loops visit the starts in row-major order. *)
Lemma scan_log_row_major base :
  scan_log base = foldl (visit_log base) (ScanState ∅ [], []) (row_major base).
Proof. apply scan_rows_flat. Qed.

(** The starts of the recorded traversals are picked, in order, from the
    starts the loops go through. *)
Lemma visit_log_starts base (l : list Pair) acc :
  ∃ starts, starts `sublist_of` l
    ∧ fst <$> (foldl (visit_log base) acc l).2 = (fst <$> acc.2) ++ starts.
Proof.
  revert acc. induction l as [|key l IH]; intros acc; simpl.
  { exists []. split; [done|]. by rewrite app_nil_r. }
  destruct (IH (visit_log base acc key)) as (starts & Hsub & ->).
  unfold visit_log. simpl. case_bool_decide.
  - exists starts. split; [by apply sublist_cons|done].
  - exists (key :: starts). split; [by apply sublist_skip|].
    rewrite fmap_app. simpl. by rewrite <-app_assoc.
Qed.

Lemma traversal_starts_sublist base :
  traversal_starts base `sublist_of` row_major base.
Proof.
  unfold traversal_starts. rewrite scan_log_row_major.
  by destruct (visit_log_starts base (row_major base) (ScanState ∅ [], []))
    as (starts & Hsub & ->).
Qed.

Lemma log_entries_Forall2 {A B} (P : A → B → Prop) (log : list (A * B)) :
  Forall (λ e, P e.1 e.2) log → Forall2 P (fst <$> log) (snd <$> log).
Proof. intros Hall. apply Forall2_fmap. by apply Forall_Forall2_diag. Qed.

(** C2: the returned cycles, and the sequences parallel to them, come in
    the order in which the row-major scan discovers them.  The
    deduplication retains the first-seen raw cycles in first-seen order; the
    [i]-th returned cycle is the canonical cycle of the traversal from the
    [i]-th start that was not skipped; these starts are picked in order
    from the row-major list of starts, so they increase strictly in the
    lexicographic order, and each is the first pair of its cycle. *)
Theorem computeModCycles_discovery_order (base : Z) :
  0 < base → int64_exact base →
  let out := computeModCycles base (Outputs [] []) in
  cyclesPairs out = first_seen (rawCycles (scan base))
  ∧ sequences out = fmap (M := list) fst <$> cyclesPairs out
  ∧ cyclesPairs out
    = (λ start, canonicalCycle (t_path (traverse base start)))
        <$> traversal_starts base
  ∧ traversal_starts base `sublist_of` row_major base
  ∧ StronglySorted pair_lt (traversal_starts base)
  ∧ Forall2 (λ start cycle, head cycle = Some start)
      (traversal_starts base) (cyclesPairs out).
Proof.
  intros Hpos Hex. cbv zeta.
  assert (cyclesPairs (computeModCycles base (Outputs [] []))
          = first_seen (rawCycles (scan base))) as Hfirst.
  { unfold computeModCycles. rewrite bool_decide_eq_false_2 by lia.
    by rewrite dedup_first_seen. }
  split; [done|]. rewrite computeModCycles_raw by done. simpl.
  split; [done|]. rewrite scan_raw_paths by done.
  pose proof (traversal_starts_sublist base) as Hsub.
  unfold traversal_paths, traversal_starts in *.
  destruct (scan_log_inv base Hpos Hex) as [_ _ _ _ _ _ Hent Hsorted].
  split_and!; [|done|done|].
  - rewrite <-list_fmap_compose. apply Forall_fmap_ext_1.
    eapply Forall_impl; [done|]. intros [start path] (_ & Hpath & Hcanon & _).
    simpl in *. by rewrite <-Hpath, Hcanon.
  - apply log_entries_Forall2. eapply Forall_impl; [done|].
    by intros e (_ & _ & _ & Hhead).
Qed.

Lemma computeModCycles_discovery_order_witness :
  0 < 3 ∧ int64_exact 3 ∧
  let out := computeModCycles 3 (Outputs [] []) in
  cyclesPairs out = first_seen (rawCycles (scan 3))
  ∧ sequences out = fmap (M := list) fst <$> cyclesPairs out
  ∧ cyclesPairs out
    = (λ start, canonicalCycle (t_path (traverse 3 start)))
        <$> traversal_starts 3
  ∧ traversal_starts 3 `sublist_of` row_major 3
  ∧ StronglySorted pair_lt (traversal_starts 3)
  ∧ Forall2 (λ start cycle, head cycle = Some start)
      (traversal_starts 3) (cyclesPairs out).
Proof.
  assert (0 < 3) as Hpos by lia.
  assert (int64_exact 3) as Hex by (unfold int64_exact, int64_max; lia).
  split; [exact Hpos|]. split; [exact Hex|].
  exact (computeModCycles_discovery_order 3 Hpos Hex).
Defined.

(** ** Claim C3 *)

(** C3: during one run no state is explored twice: the traversal paths of
    the starts that were not skipped have no state in common (and none
    twice), they make up the visited set, each is the path of the traversal
    from its start, and no cycle is found a second time. *)
Theorem visited_states_not_retraversed (base : Z) :
  0 < base → int64_exact base →
  NoDup (mjoin (traversal_paths base))
  ∧ (∀ i j path path' p,
       traversal_paths base !! i = Some path →
       traversal_paths base !! j = Some path' →
       p ∈ path → p ∈ path' → i = j)
  ∧ (∀ p, p ∈ visited (scan base) ↔ p ∈ mjoin (traversal_paths base))
  ∧ Forall2 (λ start path, path = t_path (traverse base start))
      (traversal_starts base) (traversal_paths base)
  ∧ NoDup (rawCycles (scan base)).
Proof.
  intros Hpos Hex. pose proof (scan_raw_NoDup base Hpos Hex) as Hraw.
  unfold traversal_paths, traversal_starts.
  destruct (scan_log_inv base Hpos Hex) as [_ _ _ Hvis Hnd _ Hent _].
  split_and!; [done| | | |done].
  - intros i j path path' p Hi Hj Hp Hp'. by eapply NoDup_join_lookup.
  - intros p. by rewrite <-scan_log_erase.
  - apply log_entries_Forall2. eapply Forall_impl; [done|].
    by intros e (_ & Hpath & _).
Qed.

Lemma visited_states_not_retraversed_witness :
  0 < 3 ∧ int64_exact 3 ∧
  NoDup (mjoin (traversal_paths 3))
  ∧ (∀ i j path path' p,
       traversal_paths 3 !! i = Some path →
       traversal_paths 3 !! j = Some path' →
       p ∈ path → p ∈ path' → i = j)
  ∧ (∀ p, p ∈ visited (scan 3) ↔ p ∈ mjoin (traversal_paths 3))
  ∧ Forall2 (λ start path, path = t_path (traverse 3 start))
      (traversal_starts 3) (traversal_paths 3)
  ∧ NoDup (rawCycles (scan 3)).
Proof.
  assert (0 < 3) as Hpos by lia.
  assert (int64_exact 3) as Hex by (unfold int64_exact, int64_max; lia).
  split; [exact Hpos|]. split; [exact Hex|].
  exact (visited_states_not_retraversed 3 Hpos Hex).
Defined.

(** ** Claim C6 *)

(** C6: from every start of the state space the loop leaves through the
    cycle-detection branch, after at most [base²] states have been pushed
    (so in the iteration [base² + 1] at the latest), and the counter stays
    below the cap [maxIterations]. *)
Theorem traverse_finds_cycle (base : Z) (start : Pair) :
  0 < base → int64_exact base → in_range base start →
  ∃ cycle, t_cycle (traverse base start) = Some cycle
    ∧ cycle ≠ []
    ∧ Z.of_nat (t_iterations (traverse base start)) + 1 <= base * base + 1
    ∧ Z.of_nat (t_iterations (traverse base start)) < maxIterations base.
Proof.
  intros Hpos Hex Hstart.
  destruct (traverse_orbit base start Hpos Hex Hstart)
    as (len & [Hlen0 Hlen] & _ & _ & ->). simpl.
  exists (iter_path base start len). split_and!; [done| |nia|].
  - intros Hnil. apply (f_equal length) in Hnil.
    rewrite length_iter_path in Hnil. simpl in Hnil. lia.
  - rewrite maxIterations_exact by done. nia.
Qed.

Lemma traverse_finds_cycle_witness :
  0 < 3 ∧ int64_exact 3 ∧ in_range 3 (1, 2) ∧
  ∃ cycle, t_cycle (traverse 3 (1, 2)) = Some cycle
    ∧ cycle ≠ []
    ∧ Z.of_nat (t_iterations (traverse 3 (1, 2))) + 1 <= 3 * 3 + 1
    ∧ Z.of_nat (t_iterations (traverse 3 (1, 2))) < maxIterations 3.
Proof.
  assert (0 < 3) as Hpos by lia.
  assert (int64_exact 3) as Hex by (unfold int64_exact, int64_max; lia).
  assert (in_range 3 (1, 2)) as Hstart by (unfold in_range; simpl; lia).
  split; [exact Hpos|]. split; [exact Hex|]. split; [exact Hstart|].
  exact (traverse_finds_cycle 3 (1, 2) Hpos Hex Hstart).
Defined.

(** ** Claim C8 *)

(** C8: the returned sequences are the projection of the returned cycles
    on the first component: there are as many sequences as cycles, the
    [i]-th sequence is as long as the [i]-th cycle, and its [j]-th entry is
    the first component of the [j]-th pair of that cycle. *)
Theorem sequences_project_cycles (base : Z) :
  let out := computeModCycles base (Outputs [] []) in
  length (sequences out) = length (cyclesPairs out)
  ∧ (∀ i : nat, length <$> sequences out !! i = length <$> cyclesPairs out !! i)
  ∧ (∀ i j : nat, sequences out !! i ≫= (λ seq, seq !! j)
                  = fst <$> (cyclesPairs out !! i ≫= (λ cycle, cycle !! j))).
Proof.
  cbv zeta.
  assert (sequences (computeModCycles base (Outputs [] []))
          = fmap (M := list) fst
              <$> cyclesPairs (computeModCycles base (Outputs [] []))) as ->.
  { unfold computeModCycles. case_bool_decide; [done|].
    by rewrite dedup_first_seen. }
  generalize (cyclesPairs (computeModCycles base (Outputs [] []))).
  intros cycles. split_and!.
  - by rewrite length_fmap.
  - intros i. rewrite list_lookup_fmap.
    destruct (cycles !! i) as [cycle|]; simpl; [|done].
    by rewrite length_fmap.
  - intros i j. rewrite list_lookup_fmap.
    destruct (cycles !! i) as [cycle|]; simpl; [|done].
    by rewrite list_lookup_fmap.
Qed.

(** ** Claim C10 *)

Lemma traverse_loop_in_range base remaining iterations path seenIndex current :
  0 < base →
  Forall (in_range base) path → in_range base current →
  let t := traverse_loop base remaining iterations path seenIndex current in
  Forall (in_range base) (t_path t)
  ∧ ∀ cycle, t_cycle t = Some cycle → Forall (in_range base) cycle.
Proof.
  intros Hpos. revert iterations path seenIndex current.
  induction remaining as [|remaining IH];
    intros iterations path seenIndex current Hpath Hcur; simpl.
  - by split.
  - destruct (seenIndex !! current) as [start|]; simpl.
    + split; [done|]. intros cycle [= <-]. by apply Forall_drop.
    + apply IH; [|by apply next_state_in_range].
      apply Forall_app. split; [done|]. by apply Forall_singleton.
Qed.

Lemma foldl_invariant {A B} (P : A → Prop) (Q : B → Prop) (f : A → B → A) l a :
  (∀ a x, Q x → P a → P (f a x)) → Forall Q l → P a → P (foldl f a l).
Proof.
  intros Hstep Hl. revert a.
  induction Hl as [|x l Hx Hl IH]; intros a Ha; simpl; [done|].
  by apply IH, Hstep.
Qed.

Lemma Forall_seqZ_range base : Forall (λ z, 0 <= z < base) (seqZ 0 base).
Proof. apply Forall_forall. intros z Hz%elem_of_seqZ. lia. Qed.

(** Every raw cycle is non-empty and lies in the state space; this needs
    no bound on [base]. *)
Lemma scan_raw_in_range base :
  0 < base →
  Forall (λ cycle, cycle ≠ [] ∧ Forall (in_range base) cycle)
         (rawCycles (scan base)).
Proof.
  intros Hpos. unfold scan.
  apply (foldl_invariant
           (λ st, Forall (λ cycle, cycle ≠ [] ∧ Forall (in_range base) cycle)
                         (rawCycles st))
           (λ z, 0 <= z < base)); [|apply Forall_seqZ_range|by constructor].
  intros st a0 Ha0 Hst. unfold scan_row.
  apply (foldl_invariant
           (λ st, Forall (λ cycle, cycle ≠ [] ∧ Forall (in_range base) cycle)
                         (rawCycles st))
           (λ z, 0 <= z < base)); [|apply Forall_seqZ_range|done].
  clear st Hst. intros st b0 Hb0 Hst. unfold visit_start.
  case_bool_decide; [done|]. simpl.
  destruct (traverse_loop_in_range base (Z.to_nat (maxIterations base)) 0 []
              ∅ (a0, b0) Hpos) as [_ Hcycle].
  { constructor. }
  { unfold in_range; simpl; lia. }
  fold (traverse base (a0, b0)) in Hcycle.
  destruct (t_cycle (traverse base (a0, b0))) as [[|p cycle]|]; [done| |done].
  apply Forall_app. split; [done|]. apply Forall_singleton. split.
  - intros Hnil. apply (f_equal length) in Hnil.
    by rewrite length_canonicalCycle in Hnil.
  - rewrite canonicalCycle_Permutation. by apply Hcycle.
Qed.

Lemma first_seen_from_Forall (P : list Pair → Prop) seen raw :
  Forall P raw → Forall P (first_seen_from seen raw).
Proof.
  intros Hraw. revert seen.
  induction Hraw as [|cycle raw Hc Hraw IH]; intros seen; simpl; [done|].
  case_bool_decide; [apply IH|]. constructor; [done|apply IH].
Qed.

(** C10: every returned cycle has at least one state, and both components
    of each of its states lie in [[0, base)]. *)
Theorem returned_cycles_in_range (base : Z) (cycle : list Pair) :
  0 < base →
  cycle ∈ cyclesPairs (computeModCycles base (Outputs [] [])) →
  (1 ≤ length cycle)%nat ∧ ∀ p, p ∈ cycle → in_range base p.
Proof.
  intros Hpos. unfold computeModCycles.
  rewrite bool_decide_eq_false_2 by lia. rewrite dedup_first_seen. simpl.
  intros Hin.
  pose proof (first_seen_from_Forall _ [] _ (scan_raw_in_range base Hpos)) as Hall.
  eapply Forall_forall in Hall as [Hne Hrange]; [|exact Hin].
  split.
  - destruct cycle; [done|simpl; lia].
  - intros p Hp. by eapply Forall_forall in Hrange.
Qed.

Lemma returned_cycles_in_range_witness :
  0 < 3 ∧
  [(0, 1); (1, 1); (1, 2); (2, 0); (0, 2); (2, 2); (2, 1); (1, 0)]
    ∈ cyclesPairs (computeModCycles 3 (Outputs [] [])) ∧
  (1 ≤ length [(0, 1); (1, 1); (1, 2); (2, 0); (0, 2); (2, 2); (2, 1); (1, 0)])%nat
  ∧ ∀ p, p ∈ [(0, 1); (1, 1); (1, 2); (2, 0); (0, 2); (2, 2); (2, 1); (1, 0)]
         → in_range 3 p.
Proof.
  assert (0 < 3) as Hpos by lia.
  assert ([(0, 1); (1, 1); (1, 2); (2, 0); (0, 2); (2, 2); (2, 1); (1, 0)]
            ∈ cyclesPairs (computeModCycles 3 (Outputs [] []))) as Hin.
  { vm_compute. apply list_elem_of_further, list_elem_of_here. }
  split; [exact Hpos|]. split; [exact Hin|].
  exact (returned_cycles_in_range 3 _ Hpos Hin).
Defined.

(** ** Small moduli *)

Example computeModCycles_1 :
  computeModCycles 1 (Outputs [] []) = Outputs [[0]] [[(0, 0)]].
Proof. by vm_compute. Qed.

Example computeModCycles_2 :
  computeModCycles 2 (Outputs [] [])
  = Outputs [[0]; [0; 1; 1]] [[(0, 0)]; [(0, 1); (1, 1); (1, 0)]].
Proof. by vm_compute. Qed.

Example cycle_key_example : cycle_key [(0, 1); (12, -3)] = "0,1;12,-3;".
Proof. by vm_compute. Qed.

(** ** Claim C7 *)

(** C7 as stated does not hold: the enumeration for modulus 8 does not
    return six cycles. *)
Lemma modulus_8_counterexample :
  ¬ (let cycles := cyclesPairs (computeModCycles 8 (Outputs [] [])) in
     length cycles = 6%nat
     ∧ merge_sort Nat.le (length <$> cycles) = [1; 2; 3; 6; 12; 12]%nat
     ∧ sum_list_with length cycles = 64%nat).
Proof. intros (Hcount & _). vm_compute in Hcount. discriminate. Qed.

(** C7 (amended): for modulus 8 the enumeration returns eight cycles, of
    lengths 1, 12, 6, 12, 3, 6, 12, 12 in the order of discovery, that is
    the multiset {1, 3, 6, 6, 12, 12, 12, 12}; none has length 2; the cycles
    hold 64 states in total. *)
Theorem modulus_8_cycles :
  let cycles := cyclesPairs (computeModCycles 8 (Outputs [] [])) in
  length cycles = 8%nat
  ∧ length <$> cycles = [1; 12; 6; 12; 3; 6; 12; 12]%nat
  ∧ merge_sort Nat.le (length <$> cycles) = [1; 3; 6; 6; 12; 12; 12; 12]%nat
  ∧ sum_list_with length cycles = 64%nat.
Proof. by vm_compute. Qed.

(** ** Claim C5 *)

(** C5 as stated does not hold: the enumeration does not fail on a
    non-positive modulus, the call returns. *)
Lemma invalid_modulus_counterexample :
  0 <= 0 ∧
  call_computeModCycles 0 (Outputs [] []) ≠ Throws_invalid_argument.
Proof. split; [done|]. discriminate. Qed.

(** C5 (amended): for a modulus [base <= 0] the enumeration returns at
    once, without signalling an error, and leaves both output vectors as
    they were, so that no sequence and no cycle is emitted; the invalid
    modulus is reported by [main], which writes the error message, prints no
    result and exits with status 1. *)
Theorem invalid_modulus_rejected (base : Z) (out : outputs) :
  base <= 0 →
  call_computeModCycles base out = Returns out
  ∧ computeModCycles base (Outputs [] []) = Outputs [] []
  ∧ main base = Run 1 true None.
Proof.
  intros Hbase. unfold call_computeModCycles, computeModCycles, main.
  by rewrite !bool_decide_eq_true_2 by done.
Qed.

Lemma invalid_modulus_rejected_witness :
  -5 <= 0 ∧
  call_computeModCycles (-5) (Outputs [[7]] [[(7, 7)]])
    = Returns (Outputs [[7]] [[(7, 7)]])
  ∧ computeModCycles (-5) (Outputs [] []) = Outputs [] []
  ∧ main (-5) = Run 1 true None.
Proof.
  assert (-5 <= 0) as Hbase by lia.
  split; [exact Hbase|].
  exact (invalid_modulus_rejected (-5) (Outputs [[7]] [[(7, 7)]]) Hbase).
Defined.

(** * The range of exact arithmetic *)

(** [int64_exact] holds up to [2^31 - 1], far beyond the documented limit
    of 1,000,000. *)
Lemma int64_exact_iff base : 0 < base → int64_exact base ↔ base <= 2147483647.
Proof. unfold int64_exact, int64_max. intros Hpos. split; intros; nia. Qed.

(** Above that range the products overflow [int64], and the cap, computed
    in [size_t], wraps around: it no longer exceeds the number of states. *)
Lemma maxIterations_wraps : maxIterations (2 ^ 32) = 1000.
Proof. reflexivity. Qed.

(** * Further properties of the comparison and of the canonical rotation *)

(** X1: [comparePairs] is a three-way comparison: it returns -1, 0 or 1,
    and 0 exactly for equal pairs. *)
Theorem comparePairs_three_way (a b : Pair) :
  (comparePairs a b = -1 ∨ comparePairs a b = 0 ∨ comparePairs a b = 1)
  ∧ (comparePairs a b = 0 ↔ a = b).
Proof.
  unfold comparePairs. destruct a as [a1 a2], b as [b1 b2]; simpl.
  repeat case_bool_decide; (split; [by auto|]);
    (split; [intros ?; first [lia | f_equal; lia] | intros [= ??]; lia]).
Qed.

(** X2: swapping the arguments of [comparePairs] negates the result. *)
Theorem comparePairs_swap (a b : Pair) :
  comparePairs b a = - comparePairs a b.
Proof.
  unfold comparePairs. repeat case_bool_decide; lia.
Qed.

(** X3: the order [comparePairs] decides is transitive. *)
Theorem comparePairs_trans (a b c : Pair) :
  comparePairs a b < 0 → comparePairs b c < 0 → comparePairs a c < 0.
Proof.
  rewrite !comparePairs_lt. unfold pair_lt. lia.
Qed.

Lemma comparePairs_trans_witness :
  comparePairs (0, 5) (1, 0) < 0 ∧ comparePairs (1, 0) (1, 3) < 0
  ∧ comparePairs (0, 5) (1, 3) < 0.
Proof.
  assert (comparePairs (0, 5) (1, 0) < 0) as H1 by (by vm_compute).
  assert (comparePairs (1, 0) (1, 3) < 0) as H2 by (by vm_compute).
  split; [exact H1|]. split; [exact H2|].
  exact (comparePairs_trans _ _ _ H1 H2).
Defined.

(** X4: on a non-empty cycle [findMinCycleIndex] returns a valid index;
    no pair of the cycle compares below the pair at that index, and every
    pair at an earlier index compares strictly above it (ties go to the
    lowest index). *)
Theorem findMinCycleIndex_first_least (cycle : list Pair) :
  cycle ≠ [] →
  (findMinCycleIndex cycle < length cycle)%nat
  ∧ (∀ i p q, cycle !! i = Some p →
              cycle !! findMinCycleIndex cycle = Some q →
              0 <= comparePairs p q)
  ∧ (∀ i p q, (i < findMinCycleIndex cycle)%nat → cycle !! i = Some p →
              cycle !! findMinCycleIndex cycle = Some q →
              0 < comparePairs p q).
Proof.
  intros Hne. destruct (findMinCycleIndex_spec cycle Hne) as (Hj & Hmin & Hfirst).
  split; [done|]. split.
  - intros i p q Hp Hq.
    pose proof (lookup_lt_Some _ _ _ Hp) as Hi.
    rewrite at_index_lookup in Hp, Hq by done. simplify_eq.
    specialize (Hmin i Hi). rewrite <-comparePairs_lt in Hmin. lia.
  - intros i p q Hlt Hp Hq.
    pose proof (lookup_lt_Some _ _ _ Hp) as Hi.
    rewrite at_index_lookup in Hp, Hq by done. simplify_eq.
    specialize (Hfirst i Hlt). rewrite <-comparePairs_lt in Hfirst.
    rewrite comparePairs_swap. lia.
Qed.

Lemma findMinCycleIndex_first_least_witness :
  let cycle : list Pair := [(2, 1); (0, 3); (1, 1); (0, 3)] in
  cycle ≠ [] ∧
  (findMinCycleIndex cycle < length cycle)%nat
  ∧ (∀ i p q, cycle !! i = Some p →
              cycle !! findMinCycleIndex cycle = Some q →
              0 <= comparePairs p q)
  ∧ (∀ i p q, (i < findMinCycleIndex cycle)%nat → cycle !! i = Some p →
              cycle !! findMinCycleIndex cycle = Some q →
              0 < comparePairs p q).
Proof.
  intros cycle. assert (cycle ≠ []) as Hne by done.
  split; [exact Hne|]. exact (findMinCycleIndex_first_least cycle Hne).
Defined.

(** X5: [canonicalCycle] returns the rotation of its argument that starts
    at [findMinCycleIndex]: the pairs from that index to the end followed by
    the pairs before it.  It keeps the length and the pairs with their
    multiplicities; the empty cycle is returned as it is. *)
Theorem canonicalCycle_is_rotation (cycle : list Pair) :
  canonicalCycle cycle
  = drop (findMinCycleIndex cycle) cycle ++ take (findMinCycleIndex cycle) cycle
  ∧ length (canonicalCycle cycle) = length cycle
  ∧ canonicalCycle cycle ≡ₚ cycle.
Proof.
  split_and!; [|apply length_canonicalCycle|apply canonicalCycle_Permutation].
  destruct (decide (cycle = [])) as [->|Hne]; [done|].
  destruct (findMinCycleIndex_spec cycle Hne) as (Hj & _ & _).
  rewrite canonicalCycle_rotate. unfold rotate. by rewrite Nat.mod_small.
Qed.

(** X6: a canonical cycle starts with a least pair: no pair of the cycle
    compares below the first pair of its canonical rotation. *)
Theorem canonicalCycle_head_least (cycle : list Pair) (p : Pair) :
  p ∈ cycle →
  ∃ q, head (canonicalCycle cycle) = Some q ∧ q ∈ cycle ∧ 0 <= comparePairs p q.
Proof.
  intros Hp.
  assert (cycle ≠ []) as Hne by (intros ->; by apply not_elem_of_nil in Hp).
  pose proof (length_pos_nonempty cycle Hne) as Hlen.
  assert (canonicalCycle cycle !! 0%nat
          = Some (at_index (canonicalCycle cycle) 0)) as Hhead.
  { apply at_index_lookup. rewrite length_canonicalCycle. lia. }
  assert (p ∈ canonicalCycle cycle) as Hp'
    by (by rewrite canonicalCycle_Permutation).
  set (q := at_index (canonicalCycle cycle) 0) in *.
  exists q. split_and!.
  - rewrite <-Hhead. by destruct (canonicalCycle cycle).
  - apply list_elem_of_lookup_2 in Hhead.
    by rewrite canonicalCycle_Permutation in Hhead.
  - subst q. clear Hhead. apply list_elem_of_lookup in Hp' as [i Hi].
    pose proof (lookup_lt_Some _ _ _ Hi) as Hlt.
    rewrite at_index_lookup in Hi by done. simplify_eq.
    rewrite length_canonicalCycle in Hlt.
    pose proof (canonicalCycle_head_min cycle i Hlt) as Hmin.
    rewrite <-comparePairs_lt in Hmin. lia.
Qed.

Lemma canonicalCycle_head_least_witness :
  let cycle : list Pair := [(2, 1); (0, 3); (1, 1)] in
  (1, 1) ∈ cycle ∧
  ∃ q, head (canonicalCycle cycle) = Some q ∧ q ∈ cycle
       ∧ 0 <= comparePairs (1, 1) q.
Proof.
  intros cycle.
  assert ((1, 1) ∈ cycle) as Hp
    by (apply list_elem_of_further, list_elem_of_further, list_elem_of_here).
  split; [exact Hp|]. exact (canonicalCycle_head_least cycle (1, 1) Hp).
Defined.

Lemma rotate_length {A} (l : list A) : rotate (length l) l = l.
Proof.
  rewrite <-(rotate_0 l) at 3. apply rotate_mod.
  destruct l; [done|]. by rewrite Nat.Div0.mod_same, Nat.Div0.mod_0_l.
Qed.

Lemma rotate_undo {A} (j : nat) (l : list A) :
  (j < length l)%nat → rotate (length l - j) (rotate j l) = l.
Proof.
  intros Hj. rewrite rotate_rotate.
  replace (j + (length l - j))%nat with (length l) by lia.
  apply rotate_length.
Qed.

(** X7: for cycles without repeated pairs the canonical form decides
    equality up to rotation: two such cycles have the same canonical form
    exactly when one is a rotation of the other. *)
Theorem canonicalCycle_complete (c1 c2 : list Pair) :
  NoDup c1 →
  canonicalCycle c1 = canonicalCycle c2 ↔ ∃ k, c2 = rotate k c1.
Proof.
  intros Hnd. split.
  - intros Heq. destruct (decide (c2 = [])) as [->|Hne2].
    { exists 0%nat. apply (f_equal length) in Heq.
      rewrite length_canonicalCycle in Heq. simpl in Heq.
      destruct c1; [done|simpl in Heq; lia]. }
    destruct (findMinCycleIndex_spec c2 Hne2) as (Hj2 & _ & _).
    rewrite !canonicalCycle_rotate in Heq.
    exists (findMinCycleIndex c1 + (length c2 - findMinCycleIndex c2))%nat.
    rewrite <-rotate_rotate, Heq. by rewrite rotate_undo.
  - intros [k ->]. symmetry. by apply canonicalCycle_rotation_NoDup.
Qed.

Lemma canonicalCycle_complete_witness :
  let c1 : list Pair := [(1, 1); (1, 0); (0, 1)] in
  NoDup c1 ∧
  (canonicalCycle c1 = canonicalCycle [(0, 1); (1, 1); (1, 0)]
   ↔ ∃ k, [(0, 1); (1, 1); (1, 0)] = rotate k c1).
Proof.
  intros c1.
  assert (NoDup c1) as Hnd by (apply (bool_decide_unpack _); by vm_compute).
  split; [exact Hnd|]. exact (canonicalCycle_complete c1 _ Hnd).
Defined.

(** * The hash of a pair *)

Lemma PairHash_arg_small base (p : Pair) :
  0 < base <= 1000003 → in_range base p →
  PairHash_arg p = p.1 * 1000003 + p.2.
Proof.
  unfold in_range, PairHash_arg, to_int64, to_uint64, size_t_modulus.
  intros Hbase [Ha Hb].
  rewrite (Z.mod_small p.1), (Z.mod_small p.2) by lia.
  rewrite (Z.mod_small (p.1 * 1000003)) by nia.
  rewrite (Z.mod_small (p.1 * 1000003 + p.2)) by nia.
  rewrite Z.mod_small by nia. lia.
Qed.

(** X8: on a state space with [base <= 1000003] the hash has no
    collisions of its own making: distinct states give distinct arguments
    to [std::hash], so [PairHash] is injective whenever [std::hash] is. *)
Theorem PairHash_injective (std_hash : Z → Z) (base : Z) (p q : Pair) :
  Inj (=) (=) std_hash →
  0 < base <= 1000003 → in_range base p → in_range base q →
  PairHash std_hash p = PairHash std_hash q → p = q.
Proof.
  intros Hinj Hbase Hp Hq Heq. apply Hinj in Heq.
  rewrite (PairHash_arg_small base p), (PairHash_arg_small base q) in Heq by done.
  destruct Hp as [Hp1 Hp2], Hq as [Hq1 Hq2].
  destruct p as [a b], q as [a' b']; simpl in *.
  assert (a = a') by nia. subst. f_equal. lia.
Qed.

Lemma PairHash_injective_witness :
  Inj (=) (=) (λ z : Z, z) ∧ 0 < 8 <= 1000003
  ∧ in_range 8 (3, 5) ∧ in_range 8 (3, 5)
  ∧ PairHash (λ z, z) (3, 5) = PairHash (λ z, z) (3, 5)
  ∧ (3, 5) = ((3, 5) : Pair).
Proof.
  assert (Inj (=) (=) (λ z : Z, z)) as Hinj by (by intros ???).
  assert (0 < 8 <= 1000003) as Hbase by lia.
  assert (in_range 8 (3, 5)) as Hp by (unfold in_range; simpl; lia).
  assert (PairHash (λ z, z) (3, 5) = PairHash (λ z, z) (3, 5)) as Heq by done.
  split; [exact Hinj|]. split; [exact Hbase|]. split; [exact Hp|].
  split; [exact Hp|]. split; [exact Heq|].
  exact (PairHash_injective (λ z, z) 8 (3, 5) (3, 5) Hinj Hbase Hp Hp Heq).
Defined.

(** X9: beyond that bound the hash collides inside the state space,
    whatever [std::hash] is: for [base > 1000003] the states [(0, 1000003)]
    and [(1, 0)] are distinct, in range, and have the same hash. *)
Theorem PairHash_collision (std_hash : Z → Z) (base : Z) :
  1000003 < base →
  in_range base (0, 1000003) ∧ in_range base (1, 0)
  ∧ PairHash std_hash (0, 1000003) = PairHash std_hash (1, 0).
Proof.
  intros Hbase. unfold in_range; simpl. split_and!; try lia. done.
Qed.

Lemma PairHash_collision_witness :
  1000003 < 1000004 ∧
  in_range 1000004 (0, 1000003) ∧ in_range 1000004 (1, 0)
  ∧ PairHash (λ z, z) (0, 1000003) = PairHash (λ z, z) (1, 0).
Proof.
  assert (1000003 < 1000004) as Hbase by lia.
  split; [exact Hbase|]. exact (PairHash_collision (λ z, z) 1000004 Hbase).
Defined.

(** * Further properties of the transition and of one traversal *)

(** X10: for [base > 0] the transition is a bijection of the state space:
    it maps states to states, and [prev_state] is its inverse on both
    sides.  So every state has exactly one predecessor, and no trajectory
    has a tail. *)
Theorem next_state_bijection (base : Z) (p : Pair) :
  0 < base → in_range base p →
  in_range base (next_state base p) ∧ in_range base (prev_state base p)
  ∧ prev_state base (next_state base p) = p
  ∧ next_state base (prev_state base p) = p.
Proof.
  intros Hpos Hp. split; [by apply next_state_in_range|].
  destruct Hp as [Ha Hb]. destruct p as [a b]; simpl in *.
  unfold in_range, next_state, prev_state; simpl.
  pose proof (Z.mod_pos_bound (b - a) base Hpos).
  split_and!; try lia.
  - f_equal. rewrite Z.rem_mod_nonneg by lia.
    rewrite <-Zminus_mod_idemp_l.
    replace (((a + b) `mod` base) `mod` base) with ((a + b) `mod` base)
      by (by rewrite Z.mod_mod by lia).
    rewrite Zminus_mod_idemp_l. replace (a + b - b) with a by lia.
    apply Z.mod_small. lia.
  - f_equal. rewrite Z.rem_mod_nonneg by lia.
    rewrite Zplus_mod_idemp_l. replace (b - a + a) with b by lia.
    apply Z.mod_small. lia.
Qed.

Lemma next_state_bijection_witness :
  0 < 8 ∧ in_range 8 (5, 6) ∧
  in_range 8 (next_state 8 (5, 6)) ∧ in_range 8 (prev_state 8 (5, 6))
  ∧ prev_state 8 (next_state 8 (5, 6)) = (5, 6)
  ∧ next_state 8 (prev_state 8 (5, 6)) = (5, 6).
Proof.
  assert (0 < 8) as Hpos by lia.
  assert (in_range 8 (5, 6)) as Hp by (unfold in_range; simpl; lia).
  split; [exact Hpos|]. split; [exact Hp|].
  exact (next_state_bijection 8 (5, 6) Hpos Hp).
Defined.

Lemma iter_path_successor base s len i p :
  (0 < len)%nat → iter_state base s len = s →
  iter_path base s len !! i = Some p →
  iter_path base s len !! (S i `mod` len)%nat = Some (next_state base p).
Proof.
  intros Hlen Hclose Hi.
  pose proof (lookup_lt_Some _ _ _ Hi) as Hlt. rewrite length_iter_path in Hlt.
  rewrite lookup_iter_path in Hi by done. simplify_eq.
  rewrite <-iter_state_S.
  destruct (decide (S i = len)) as [Heq|Hne].
  - rewrite Heq, Nat.Div0.mod_same, Hclose. by apply lookup_iter_path.
  - rewrite Nat.mod_small by lia. apply lookup_iter_path. lia.
Qed.

(** X11: from a start of the state space the traversal finds a cycle
    without tail: the cycle is the whole path, it begins with the start, has
    no repeated state, each state is followed (cyclically) by its successor
    under the transition, and [iterations] counts its states. *)
Theorem traverse_cycle_is_path (base : Z) (start : Pair) :
  0 < base → int64_exact base → in_range base start →
  let t := traverse base start in
  t_cycle t = Some (t_path t)
  ∧ head (t_path t) = Some start
  ∧ NoDup (t_path t)
  ∧ t_iterations t = length (t_path t)
  ∧ ∀ i p, t_path t !! i = Some p →
           t_path t !! (S i `mod` length (t_path t))%nat
           = Some (next_state base p).
Proof.
  intros Hpos Hex Hstart.
  destruct (traverse_orbit base start Hpos Hex Hstart)
    as (len & [Hlen0 Hlen] & Hnd & Hclose & ->). simpl.
  rewrite length_iter_path. split_and!; [done| |done|done|].
  - destruct len; [lia|done].
  - intros i p Hi. by apply iter_path_successor.
Qed.

Lemma traverse_cycle_is_path_witness :
  0 < 3 ∧ int64_exact 3 ∧ in_range 3 (1, 2) ∧
  let t := traverse 3 (1, 2) in
  t_cycle t = Some (t_path t)
  ∧ head (t_path t) = Some (1, 2)
  ∧ NoDup (t_path t)
  ∧ t_iterations t = length (t_path t)
  ∧ ∀ i p, t_path t !! i = Some p →
           t_path t !! (S i `mod` length (t_path t))%nat
           = Some (next_state 3 p).
Proof.
  assert (0 < 3) as Hpos by lia.
  assert (int64_exact 3) as Hex by (unfold int64_exact, int64_max; lia).
  assert (in_range 3 (1, 2)) as Hstart by (unfold in_range; simpl; lia).
  split; [exact Hpos|]. split; [exact Hex|]. split; [exact Hstart|].
  exact (traverse_cycle_is_path 3 (1, 2) Hpos Hex Hstart).
Defined.

Lemma iter_state_multiple base s len q :
  iter_state base s len = s → iter_state base s (q * len) = s.
Proof.
  intros Hclose. induction q as [|q IH]; [done|].
  replace (S q * len)%nat with (len + q * len)%nat by lia.
  by rewrite iter_state_add, IH.
Qed.

Lemma iter_state_mod base s len n :
  iter_state base s len = s →
  iter_state base s n = iter_state base s (n `mod` len).
Proof.
  intros Hclose. rewrite (Nat.div_mod_eq n len) at 1.
  replace (len * (n `div` len) + n `mod` len)%nat
    with (n `mod` len + (n `div` len) * len)%nat by lia.
  by rewrite iter_state_add, iter_state_multiple.
Qed.

(** The length of a repetition-free closed path is the least period of
    its start, and divides every period. *)
Lemma period_least base s len n :
  NoDup (iter_path base s len) →
  (0 < n)%nat → iter_state base s n = s → (len ≤ n)%nat.
Proof.
  intros Hnd Hn Hper. destruct (decide (len ≤ n)%nat) as [|Hlt]; [done|].
  assert (n = 0%nat); [|lia].
  eapply NoDup_lookup; [done|by apply lookup_iter_path; lia|].
  rewrite Hper. apply lookup_iter_path. lia.
Qed.

Lemma period_divides base s len n :
  NoDup (iter_path base s len) → (0 < len)%nat →
  iter_state base s len = s → iter_state base s n = s → (len | n)%nat.
Proof.
  intros Hnd Hlen Hclose Hper.
  rewrite (iter_state_mod base s len n Hclose) in Hper.
  pose proof (Nat.mod_upper_bound n len ltac:(lia)) as Hr.
  destruct (decide (n `mod` len = 0)%nat) as [Hz|Hnz].
  - exists (n `div` len)%nat. rewrite (Nat.div_mod_eq n len) at 1. lia.
  - pose proof (period_least base s len (n `mod` len) Hnd ltac:(lia) Hper). lia.
Qed.

(** The orbit seen from its [k]-th state is the orbit rotated by [k]. *)
Lemma iter_path_rotate base s len k :
  (0 < len)%nat → iter_state base s len = s →
  iter_path base (iter_state base s k) len = rotate k (iter_path base s len).
Proof.
  intros Hlen Hclose. apply list_eq. intros i.
  destruct (decide (i < len)%nat) as [Hi|Hi].
  - rewrite lookup_iter_path by done.
    rewrite lookup_rotate_r by (by rewrite length_iter_path).
    rewrite length_iter_path, rotate_nat_add_mod.
    rewrite lookup_iter_path by (apply Nat.mod_upper_bound; lia).
    f_equal. rewrite <-iter_state_add, <-(iter_state_mod base s len) by done.
    f_equal. lia.
  - rewrite !(proj2 (lookup_ge_None _ _));
      rewrite ?length_rotate, ?length_iter_path; [done|lia..].
Qed.

(** The traversal from a state of an orbit returns that orbit, rotated. *)
Lemma traverse_orbit_shift base s len k :
  0 < base → int64_exact base → in_range base s →
  (0 < len)%nat → NoDup (iter_path base s len) → iter_state base s len = s →
  traverse base (iter_state base s k)
  = Traversal (rotate k (iter_path base s len))
              (Some (rotate k (iter_path base s len))) len.
Proof.
  intros Hpos Hex Hs Hlen Hnd Hclose. set (p := iter_state base s k).
  assert (in_range base p) as Hp by (by apply iter_state_in_range).
  destruct (traverse_orbit base p Hpos Hex Hp)
    as (len' & [Hlen0' Hlen'] & Hnd' & Hclose' & ->).
  assert (iter_state base p len = p) as Hper.
  { unfold p. rewrite <-iter_state_add, Nat.add_comm, iter_state_add.
    by rewrite Hclose. }
  assert (iter_state base s len' = s) as Hper'.
  { assert (s = iter_state base p (len - k `mod` len)) as Hsp.
    { unfold p. rewrite (iter_state_mod base s len k Hclose).
      rewrite <-iter_state_add.
      pose proof (Nat.mod_upper_bound k len ltac:(lia)).
      replace (len - k `mod` len + k `mod` len)%nat with len by lia.
      by rewrite Hclose. }
    rewrite Hsp at 1. rewrite <-iter_state_add, Nat.add_comm, iter_state_add.
    by rewrite Hclose', <-Hsp. }
  assert (len' = len) as ->.
  { pose proof (period_least base p len' len Hnd' Hlen Hper).
    pose proof (period_least base s len len' Hnd Hlen0' Hper'). lia. }
  unfold p. by rewrite (iter_path_rotate base s len k Hlen Hclose).
Qed.

(** X12: the traversals from two states of one orbit cut out rotations of
    the same cycle, and these have the same canonical form: this is what
    lets the canonical form identify a cycle whatever its entry point. *)
Theorem traverse_same_orbit (base : Z) (start p : Pair) :
  0 < base → int64_exact base → in_range base start →
  p ∈ t_path (traverse base start) →
  ∃ k cycle cycle',
    t_cycle (traverse base start) = Some cycle
    ∧ t_cycle (traverse base p) = Some cycle'
    ∧ cycle' = rotate k cycle
    ∧ canonicalCycle cycle' = canonicalCycle cycle.
Proof.
  intros Hpos Hex Hstart.
  destruct (traverse_orbit base start Hpos Hex Hstart)
    as (len & [Hlen0 Hlen] & Hnd & Hclose & ->). simpl.
  intros (k & Hk & <-)%elem_of_iter_path.
  rewrite (traverse_orbit_shift base start len k) by done. simpl.
  exists k, (iter_path base start len), (rotate k (iter_path base start len)).
  split_and!; [done..|]. by apply canonicalCycle_rotation_NoDup.
Qed.

Lemma traverse_same_orbit_witness :
  0 < 3 ∧ int64_exact 3 ∧ in_range 3 (0, 1) ∧
  (2, 2) ∈ t_path (traverse 3 (0, 1)) ∧
  ∃ k cycle cycle',
    t_cycle (traverse 3 (0, 1)) = Some cycle
    ∧ t_cycle (traverse 3 (2, 2)) = Some cycle'
    ∧ cycle' = rotate k cycle
    ∧ canonicalCycle cycle' = canonicalCycle cycle.
Proof.
  assert (0 < 3) as Hpos by lia.
  assert (int64_exact 3) as Hex by (unfold int64_exact, int64_max; lia).
  assert (in_range 3 (0, 1)) as Hstart by (unfold in_range; simpl; lia).
  assert ((2, 2) ∈ t_path (traverse 3 (0, 1))) as Hin.
  { vm_compute. do 5 apply list_elem_of_further. apply list_elem_of_here. }
  split; [exact Hpos|]. split; [exact Hex|]. split; [exact Hstart|].
  split; [exact Hin|].
  exact (traverse_same_orbit 3 (0, 1) (2, 2) Hpos Hex Hstart Hin).
Defined.

(** * Further properties of the enumeration *)

(** Every returned cycle is the orbit of its first pair, from which it
    was discovered. *)
Lemma returned_cycle_orbit base cycle :
  0 < base → int64_exact base →
  cycle ∈ cyclesPairs (computeModCycles base (Outputs [] [])) →
  ∃ start len,
    in_range base start ∧ (0 < len)%nat
    ∧ cycle = iter_path base start len
    ∧ NoDup cycle
    ∧ iter_state base start len = start
    ∧ canonicalCycle cycle = cycle.
Proof.
  intros Hpos Hex. rewrite computeModCycles_raw, scan_raw_paths by done. simpl.
  unfold traversal_paths.
  destruct (scan_log_inv base Hpos Hex) as [Hrange _ _ Hvis _ _ Hent _].
  intros Hcycle. apply list_elem_of_fmap in Hcycle as (e & Heq & He).
  destruct e as [start path]. simpl in Heq. subst cycle.
  pose proof He as Hin.
  destruct (proj1 (Forall_forall _ _) Hent _ He) as (_ & Hpath & Hcanon & Hhead).
  simpl in *.
  assert (in_range base start) as Hstart.
  { apply Hrange, Hvis, list_elem_of_join. exists path. split.
    - destruct path; simplify_eq/=. left.
    - apply list_elem_of_fmap. by exists (start, path). }
  destruct (traverse_orbit base start Hpos Hex Hstart)
    as (len & [Hlen0 Hlen] & Hnd & Hclose & Htrav).
  rewrite Htrav in Hpath. simpl in Hpath. subst path.
  by exists start, len.
Qed.

Lemma returned_cycles_follow_transition_aux base cycle :
  0 < base → int64_exact base →
  cycle ∈ cyclesPairs (computeModCycles base (Outputs [] [])) →
  ∀ i p, cycle !! i = Some p →
         cycle !! (S i `mod` length cycle)%nat = Some (next_state base p).
Proof.
  intros Hpos Hex Hin i p Hi.
  destruct (returned_cycle_orbit base cycle Hpos Hex Hin)
    as (start & len & _ & Hlen & -> & _ & Hclose & _).
  rewrite length_iter_path. by apply iter_path_successor.
Qed.

Lemma returned_cycles_in_range_aux base cycle p :
  0 < base → int64_exact base →
  cycle ∈ cyclesPairs (computeModCycles base (Outputs [] [])) →
  p ∈ cycle → in_range base p.
Proof.
  intros Hpos Hex Hin Hp.
  destruct (returned_cycle_orbit base cycle Hpos Hex Hin)
    as (start & len & Hstart & _ & -> & _).
  eapply Forall_forall; [by apply iter_path_in_range|done].
Qed.

(** X13: every returned cycle is closed under the transition: each of its
    states is followed, cyclically, by its successor
    [(second, (first + second) % base)]. *)
Theorem returned_cycles_follow_transition (base : Z) (cycle : list Pair)
    (i : nat) (p : Pair) :
  0 < base → int64_exact base →
  cycle ∈ cyclesPairs (computeModCycles base (Outputs [] [])) →
  cycle !! i = Some p →
  cycle !! (S i `mod` length cycle)%nat = Some (next_state base p).
Proof.
  intros Hpos Hex Hin Hi.
  by apply returned_cycles_follow_transition_aux.
Qed.

Lemma returned_cycles_follow_transition_witness :
  let cycle : list Pair := [(0, 1); (1, 1); (1, 0)] in
  0 < 2 ∧ int64_exact 2 ∧
  cycle ∈ cyclesPairs (computeModCycles 2 (Outputs [] [])) ∧
  cycle !! 2%nat = Some (1, 0) ∧
  cycle !! (3 `mod` length cycle)%nat = Some (next_state 2 (1, 0)).
Proof.
  intros cycle.
  assert (0 < 2) as Hpos by lia.
  assert (int64_exact 2) as Hex by (unfold int64_exact, int64_max; lia).
  assert (cycle ∈ cyclesPairs (computeModCycles 2 (Outputs [] []))) as Hin.
  { vm_compute. apply list_elem_of_further, list_elem_of_here. }
  assert (cycle !! 2%nat = Some (1, 0)) as Hi by done.
  split; [exact Hpos|]. split; [exact Hex|]. split; [exact Hin|].
  split; [exact Hi|].
  exact (returned_cycles_follow_transition 2 cycle 2 (1, 0) Hpos Hex Hin Hi).
Defined.

Lemma computeModCycles_sequences base :
  sequences (computeModCycles base (Outputs [] []))
  = fmap (M := list) fst <$> cyclesPairs (computeModCycles base (Outputs [] [])).
Proof.
  unfold computeModCycles. case_bool_decide; [done|].
  by rewrite dedup_first_seen.
Qed.

(** X14: every returned sequence obeys the recurrence, cyclically: the
    entry after two consecutive entries [a] and [b] is [(a + b) mod base]. *)
Theorem returned_sequences_recurrence (base : Z) (sequence : list Z)
    (i : nat) (a b : Z) :
  0 < base → int64_exact base →
  sequence ∈ sequences (computeModCycles base (Outputs [] [])) →
  sequence !! i = Some a →
  sequence !! (S i `mod` length sequence)%nat = Some b →
  sequence !! (S (S i) `mod` length sequence)%nat = Some ((a + b) `mod` base).
Proof.
  intros Hpos Hex. rewrite computeModCycles_sequences.
  intros (cycle & -> & Hin)%list_elem_of_fmap.
  rewrite length_fmap, !list_lookup_fmap. intros Ha Hb.
  destruct (cycle !! i) as [[a' x]|] eqn:Hi; [|done].
  simpl in Ha. injection Ha as ->.
  pose proof (returned_cycles_follow_transition_aux base cycle Hpos Hex Hin)
    as Hnext.
  pose proof (Hnext _ _ Hi) as H1. rewrite H1 in Hb.
  simpl in Hb. injection Hb as <-.
  pose proof (Hnext _ _ H1) as H2.
  replace (S (S i `mod` length cycle) `mod` length cycle)%nat
    with (S (S i) `mod` length cycle)%nat in H2.
  2:{ replace (S (S i)) with (S i + 1)%nat by lia.
      replace (S (S i `mod` length cycle)) with (S i `mod` length cycle + 1)%nat
        by lia.
      by rewrite Nat.Div0.add_mod_idemp_l. }
  rewrite H2. simpl. f_equal.
  assert (in_range base (a, x)) as [Ha' Hx].
  { eapply returned_cycles_in_range_aux; [done..|].
    by eapply list_elem_of_lookup_2. }
  simpl in *. unfold next_state; simpl.
  rewrite Z.rem_mod_nonneg by lia. done.
Qed.

Lemma returned_sequences_recurrence_witness :
  let sequence : list Z := [0; 1; 1] in
  0 < 2 ∧ int64_exact 2 ∧
  sequence ∈ sequences (computeModCycles 2 (Outputs [] [])) ∧
  sequence !! 1%nat = Some 1 ∧
  sequence !! (2 `mod` length sequence)%nat = Some 1 ∧
  sequence !! (3 `mod` length sequence)%nat = Some ((1 + 1) `mod` 2).
Proof.
  intros sequence.
  assert (0 < 2) as Hpos by lia.
  assert (int64_exact 2) as Hex by (unfold int64_exact, int64_max; lia).
  assert (sequence ∈ sequences (computeModCycles 2 (Outputs [] []))) as Hin.
  { vm_compute. apply list_elem_of_further, list_elem_of_here. }
  assert (sequence !! 1%nat = Some 1) as Ha by done.
  assert (sequence !! (2 `mod` length sequence)%nat = Some 1) as Hb by done.
  split; [exact Hpos|]. split; [exact Hex|]. split; [exact Hin|].
  split; [exact Ha|]. split; [exact Hb|].
  exact (returned_sequences_recurrence 2 sequence 1 1 1 Hpos Hex Hin Ha Hb).
Defined.

(** X15: every returned cycle is in canonical form: [canonicalCycle]
    leaves it unchanged, it has no repeated pair, and its first pair
    compares strictly below each of its other pairs. *)
Theorem returned_cycles_canonical (base : Z) (cycle : list Pair) :
  0 < base → int64_exact base →
  cycle ∈ cyclesPairs (computeModCycles base (Outputs [] [])) →
  canonicalCycle cycle = cycle
  ∧ NoDup cycle
  ∧ ∃ q, head cycle = Some q
         ∧ ∀ i p, cycle !! i = Some p → i ≠ 0%nat → comparePairs q p < 0.
Proof.
  intros Hpos Hex Hin.
  destruct (returned_cycle_orbit base cycle Hpos Hex Hin)
    as (start & len & _ & Hlen & Hcycle & Hnd & _ & Hcanon).
  split; [done|]. split; [done|].
  assert (0 < length cycle)%nat as Hlen'
    by (by rewrite Hcycle, length_iter_path).
  exists (at_index cycle 0). split.
  - rewrite <-at_index_lookup by done. by destruct cycle.
  - intros i p Hi Hne. pose proof (lookup_lt_Some _ _ _ Hi) as Hlt.
    apply comparePairs_lt.
    destruct (pair_lt_trichotomy (at_index cycle 0) p) as [?|[Heq|Hgt]]; [done| |].
    + destruct Hne. eapply NoDup_lookup; [exact Hnd|exact Hi|].
      rewrite <-Heq. by apply at_index_lookup.
    + pose proof (canonicalCycle_head_min cycle i Hlt) as Hmin.
      rewrite Hcanon in Hmin. rewrite at_index_lookup in Hi by done.
      by simplify_eq.
Qed.

Lemma returned_cycles_canonical_witness :
  let cycle : list Pair := [(0, 1); (1, 1); (1, 0)] in
  0 < 2 ∧ int64_exact 2 ∧
  cycle ∈ cyclesPairs (computeModCycles 2 (Outputs [] [])) ∧
  canonicalCycle cycle = cycle
  ∧ NoDup cycle
  ∧ ∃ q, head cycle = Some q
         ∧ ∀ i p, cycle !! i = Some p → i ≠ 0%nat → comparePairs q p < 0.
Proof.
  intros cycle.
  assert (0 < 2) as Hpos by lia.
  assert (int64_exact 2) as Hex by (unfold int64_exact, int64_max; lia).
  assert (cycle ∈ cyclesPairs (computeModCycles 2 (Outputs [] []))) as Hin.
  { vm_compute. apply list_elem_of_further, list_elem_of_here. }
  split; [exact Hpos|]. split; [exact Hex|]. split; [exact Hin|].
  exact (returned_cycles_canonical 2 cycle Hpos Hex Hin).
Defined.

(** X16: [computeModCycles] appends to the two vectors it is given: what
    they held before the call stays in front, followed by exactly what a
    call on empty vectors returns.  The set of seen keys is local to a call,
    so a second call on the same vectors appends the same cycles once
    more. *)
Theorem computeModCycles_appends (base : Z) (out : outputs) :
  let fresh := computeModCycles base (Outputs [] []) in
  sequences (computeModCycles base out) = sequences out ++ sequences fresh
  ∧ cyclesPairs (computeModCycles base out)
    = cyclesPairs out ++ cyclesPairs fresh
  ∧ cyclesPairs (computeModCycles base fresh)
    = cyclesPairs fresh ++ cyclesPairs fresh.
Proof.
  assert (∀ out', sequences (computeModCycles base out')
                  = sequences out'
                    ++ sequences (computeModCycles base (Outputs [] []))
                  ∧ cyclesPairs (computeModCycles base out')
                    = cyclesPairs out'
                      ++ cyclesPairs (computeModCycles base (Outputs [] [])))
    as Happ.
  { intros out'. unfold computeModCycles. case_bool_decide.
    - simpl. by rewrite !app_nil_r.
    - by rewrite !dedup_first_seen. }
  cbv zeta. split_and!; apply Happ.
Qed.

(** * The first two cycles and the Fibonacci numbers *)

Lemma visit_log_prefix base (l : list Pair) acc :
  ∃ more, (foldl (visit_log base) acc l).2 = acc.2 ++ more.
Proof.
  revert acc. induction l as [|key l IH]; intros acc; simpl.
  { exists []. by rewrite app_nil_r. }
  destruct (IH (visit_log base acc key)) as (more & ->).
  unfold visit_log. simpl. case_bool_decide; [by eexists|].
  rewrite <-app_assoc. by eexists.
Qed.

Lemma row_major_cons base :
  0 < base →
  row_major base
  = (0, 0) :: ((λ b0, (0, b0)) <$> seqZ 1 (base - 1))
      ++ (seqZ 1 (base - 1) ≫= λ a0, (λ b0, (a0, b0)) <$> seqZ 0 base).
Proof.
  intros Hpos. unfold row_major.
  set (f := λ a0 : Z, (λ b0, (a0, b0)) <$> seqZ 0 base).
  assert (seqZ 0 base = 0 :: seqZ 1 (base - 1)) as Hs
    by (by rewrite seqZ_cons by lia).
  change (seqZ 0 base ≫= f = (0, 0) :: ((λ b0, (0, b0)) <$> seqZ 1 (base - 1))
                                ++ (seqZ 1 (base - 1) ≫= f)).
  rewrite Hs, bind_cons. unfold f at 1. by rewrite Hs, fmap_cons.
Qed.

Lemma row_major_first base :
  0 < base → ∃ rest, row_major base = (0, 0) :: rest.
Proof. intros Hpos. rewrite row_major_cons by done. by eexists. Qed.

Lemma row_major_second base :
  1 < base → ∃ rest, row_major base = (0, 0) :: (0, 1) :: rest.
Proof.
  intros Hpos. rewrite row_major_cons by lia.
  rewrite (seqZ_cons 1 (base - 1)) by lia. rewrite fmap_cons. simpl.
  by eexists.
Qed.

(** The traversal from [(0,0)] finds the fixed point. *)
Lemma traverse_zero base :
  0 < base → int64_exact base →
  traverse base (0, 0) = Traversal [(0, 0)] (Some [(0, 0)]) 1.
Proof.
  intros Hpos Hex.
  assert (in_range base (0, 0)) as Hs by (unfold in_range; simpl; lia).
  destruct (traverse_orbit base (0, 0) Hpos Hex Hs)
    as (len & [Hlen0 Hlen] & Hnd & Hclose & ->).
  assert (iter_state base (0, 0) 1 = (0, 0)) as Hfix.
  { unfold iter_state, next_state; simpl. by rewrite Z.rem_0_l by lia. }
  pose proof (period_least base (0, 0) len 1 Hnd ltac:(lia) Hfix).
  by replace len with 1%nat by lia.
Qed.

Section first_cycles.
Variable base : Z.
Hypothesis base_pos : 0 < base.
Hypothesis base_exact : int64_exact base.

Lemma returned_cycles_paths :
  cyclesPairs (computeModCycles base (Outputs [] []))
  = snd <$> (scan_log base).2.
Proof. by rewrite computeModCycles_raw, scan_raw_paths. Qed.

Lemma visit_log_zero :
  visit_log base (ScanState ∅ [], []) (0, 0)
  = (ScanState (∅ ∪ list_to_set [(0, 0)]) [[(0, 0)]], [((0, 0), [(0, 0)])]).
Proof.
  unfold visit_log, visit_start. simpl.
  rewrite bool_decide_eq_false_2 by set_solver.
  by rewrite traverse_zero by done.
Qed.

Lemma scan_log_first :
  ∃ more, (scan_log base).2 = ((0, 0), [(0, 0)]) :: more.
Proof.
  rewrite scan_log_row_major.
  destruct (row_major_first base base_pos) as (rest & ->).
  cbn [foldl]. rewrite visit_log_zero.
  destruct (visit_log_prefix base rest
              (ScanState (∅ ∪ list_to_set [(0, 0)]) [[(0, 0)]],
               [((0, 0), [(0, 0)])])) as (more & ->).
  simpl. by eexists.
Qed.

Lemma scan_log_second :
  1 < base →
  ∃ more, (scan_log base).2
          = ((0, 0), [(0, 0)]) :: ((0, 1), t_path (traverse base (0, 1))) :: more.
Proof.
  intros Hbase. rewrite scan_log_row_major.
  destruct (row_major_second base Hbase) as (rest & ->).
  cbn [foldl]. rewrite visit_log_zero.
  destruct (visit_log_prefix base rest
              (visit_log base
                 (ScanState (∅ ∪ list_to_set [(0, 0)]) [[(0, 0)]],
                  [((0, 0), [(0, 0)])]) (0, 1))) as (more & ->).
  unfold visit_log. simpl.
  rewrite bool_decide_eq_false_2; [simpl; by eexists|].
  intros [Hin|Hin]%elem_of_union; [by apply not_elem_of_empty in Hin|].
  apply elem_of_union in Hin as [Hin|Hin]; [|by apply not_elem_of_empty in Hin].
  apply elem_of_singleton in Hin. discriminate.
Qed.
End first_cycles.

(** X17: for every valid modulus the first returned cycle is the fixed
    point [(0,0)], with the sequence [[0]]. *)
Theorem first_cycle_is_zero (base : Z) :
  0 < base → int64_exact base →
  let out := computeModCycles base (Outputs [] []) in
  cyclesPairs out !! 0%nat = Some [(0, 0)]
  ∧ sequences out !! 0%nat = Some [0].
Proof.
  intros Hpos Hex. cbv zeta.
  rewrite computeModCycles_sequences, returned_cycles_paths by done.
  destruct (scan_log_first base Hpos Hex) as (more & ->). done.
Qed.

Lemma first_cycle_is_zero_witness :
  0 < 3 ∧ int64_exact 3 ∧
  let out := computeModCycles 3 (Outputs [] []) in
  cyclesPairs out !! 0%nat = Some [(0, 0)]
  ∧ sequences out !! 0%nat = Some [0].
Proof.
  assert (0 < 3) as Hpos by lia.
  assert (int64_exact 3) as Hex by (unfold int64_exact, int64_max; lia).
  split; [exact Hpos|]. split; [exact Hex|].
  exact (first_cycle_is_zero 3 Hpos Hex).
Defined.

Lemma fib_SS n : fib (S (S n)) = fib n + fib (S n).
Proof. done. Qed.

Lemma mod_combination m a b x y x' y' :
  0 < m → x `mod` m = x' `mod` m → y `mod` m = y' `mod` m →
  (a * x + b * y) `mod` m = (a * x' + b * y') `mod` m.
Proof.
  intros Hm Hx Hy.
  rewrite Z.add_mod, (Z.mul_mod a x), (Z.mul_mod b y), Hx, Hy by lia.
  by rewrite <-(Z.mul_mod a x'), <-(Z.mul_mod b y'), <-Z.add_mod by lia.
Qed.

(** The transition is linear: after [n + 1] steps a state is the
    combination of its components with consecutive Fibonacci numbers. *)
Lemma iter_state_fib base a b n :
  0 < base → in_range base (a, b) →
  iter_state base (a, b) (S n)
  = ((a * fib n + b * fib (S n)) `mod` base,
     (a * fib (S n) + b * fib (S (S n))) `mod` base).
Proof.
  intros Hpos [Ha Hb]. cbn [fst snd] in Ha, Hb. induction n as [|n IH].
  - unfold iter_state, next_state; simpl.
    rewrite Z.rem_mod_nonneg by lia. f_equal.
    + rewrite Z.mul_0_r, Z.mul_1_r, Z.add_0_l. symmetry. by apply Z.mod_small.
    + by rewrite !Z.mul_1_r.
  - rewrite iter_state_S, IH. unfold next_state; cbn [fst snd]. f_equal.
    pose proof (Z.mod_pos_bound (a * fib n + b * fib (S n)) base Hpos).
    pose proof (Z.mod_pos_bound (a * fib (S n) + b * fib (S (S n))) base Hpos).
    rewrite Z.rem_mod_nonneg by lia.
    rewrite <-Z.add_mod by lia. f_equal.
    rewrite (fib_SS (S n)), (fib_SS n). ring.
Qed.

(** The trajectory of [(0,1)] lists the Fibonacci numbers modulo [base]. *)
Lemma iter_state_fib_01 base n :
  1 < base →
  iter_state base (0, 1) n = (fib n `mod` base, fib (S n) `mod` base).
Proof.
  intros Hbase. destruct n as [|n].
  - unfold iter_state; simpl. by rewrite Z.mod_0_l, Z.mod_small by lia.
  - rewrite iter_state_fib by (unfold in_range; simpl; lia).
    f_equal; f_equal; lia.
Qed.

(** A period of [(0,1)] is a period of every state. *)
Lemma period_of_01_fixes_all base n (p : Pair) :
  1 < base → in_range base p →
  iter_state base (0, 1) (S n) = (0, 1) →
  iter_state base p (S n) = p.
Proof.
  intros Hbase Hp Hper.
  assert (fib (S n) `mod` base = 0 ∧ fib (S (S n)) `mod` base = 1) as [H0 H1].
  { rewrite iter_state_fib_01 in Hper by done. by injection Hper. }
  assert (fib n `mod` base = 1 `mod` base) as Hn.
  { replace (fib n) with (fib (S (S n)) - fib (S n)) by (rewrite fib_SS; lia).
    by rewrite Zminus_mod, H0, H1, Z.sub_0_r. }
  assert (fib (S n) `mod` base = 0 `mod` base) as HSn
    by (by rewrite H0, Z.mod_0_l by lia).
  assert (fib (S (S n)) `mod` base = 1 `mod` base) as HSSn
    by (by rewrite H1, Z.mod_small by lia).
  destruct p as [a b]. rewrite (iter_state_fib base a b n ltac:(lia) Hp).
  destruct Hp as [Ha Hb]; cbn [fst snd] in Ha, Hb.
  rewrite (mod_combination base a b _ _ 1 0 ltac:(lia) Hn HSn).
  rewrite (mod_combination base a b _ _ 0 1 ltac:(lia) HSn HSSn).
  f_equal.
  - rewrite Z.mul_1_r, Z.mul_0_r, Z.add_0_r. by apply Z.mod_small.
  - rewrite Z.mul_1_r, Z.mul_0_r, Z.add_0_l. by apply Z.mod_small.
Qed.

Lemma second_cycle_orbit base :
  1 < base → int64_exact base →
  ∃ period,
    (0 < period)%nat
    ∧ cyclesPairs (computeModCycles base (Outputs [] [])) !! 1%nat
      = Some (iter_path base (0, 1) period)
    ∧ NoDup (iter_path base (0, 1) period)
    ∧ iter_state base (0, 1) period = (0, 1).
Proof.
  intros Hbase Hex.
  rewrite returned_cycles_paths by (done || lia).
  destruct (scan_log_second base ltac:(lia) Hex Hbase) as (more & ->).
  assert (in_range base (0, 1)) as Hs by (unfold in_range; simpl; lia).
  destruct (traverse_orbit base (0, 1) ltac:(lia) Hex Hs)
    as (len & [Hlen0 Hlen] & Hnd & Hclose & ->).
  by exists len.
Qed.

(** X18: for a modulus of at least 2 the second returned cycle is the
    orbit of [(0,1)], and the second returned sequence lists the Fibonacci
    numbers modulo [base] over one Pisano period: its length is the least
    [n > 0] with [fib n ≡ 0] and [fib (n+1) ≡ 1]. *)
Theorem second_cycle_is_fibonacci (base : Z) :
  1 < base → int64_exact base →
  let out := computeModCycles base (Outputs [] []) in
  ∃ period,
    (0 < period)%nat
    ∧ cyclesPairs out !! 1%nat
      = Some ((λ i, (fib i `mod` base, fib (S i) `mod` base)) <$> seq 0 period)
    ∧ sequences out !! 1%nat
      = Some ((λ i, fib i `mod` base) <$> seq 0 period)
    ∧ fib period `mod` base = 0 ∧ fib (S period) `mod` base = 1
    ∧ ∀ n, (0 < n < period)%nat →
           ¬ (fib n `mod` base = 0 ∧ fib (S n) `mod` base = 1).
Proof.
  intros Hbase Hex. cbv zeta.
  destruct (second_cycle_orbit base Hbase Hex)
    as (period & Hpos & Hcycle & Hnd & Hclose).
  assert (iter_path base (0, 1) period
          = (λ i, (fib i `mod` base, fib (S i) `mod` base)) <$> seq 0 period)
    as Hfib.
  { unfold iter_path. apply list_fmap_ext. intros i x _.
    by apply iter_state_fib_01. }
  assert (fib period `mod` base = 0 ∧ fib (S period) `mod` base = 1)
    as [Hp0 Hp1].
  { rewrite iter_state_fib_01 in Hclose by done. by injection Hclose. }
  exists period. rewrite computeModCycles_sequences, list_lookup_fmap, Hcycle.
  rewrite Hfib. split_and!; [done|done| |done|done|].
  - simpl. by rewrite <-list_fmap_compose.
  - intros n [Hn0 Hn] [H0 H1].
    assert (iter_state base (0, 1) n = (0, 1)) as Hper.
    { rewrite iter_state_fib_01 by done. by rewrite H0, H1. }
    pose proof (period_least base (0, 1) period n Hnd Hn0 Hper). lia.
Qed.

Lemma second_cycle_is_fibonacci_witness :
  1 < 3 ∧ int64_exact 3 ∧
  let out := computeModCycles 3 (Outputs [] []) in
  ∃ period,
    (0 < period)%nat
    ∧ cyclesPairs out !! 1%nat
      = Some ((λ i, (fib i `mod` 3, fib (S i) `mod` 3)) <$> seq 0 period)
    ∧ sequences out !! 1%nat
      = Some ((λ i, fib i `mod` 3) <$> seq 0 period)
    ∧ fib period `mod` 3 = 0 ∧ fib (S period) `mod` 3 = 1
    ∧ ∀ n, (0 < n < period)%nat →
           ¬ (fib n `mod` 3 = 0 ∧ fib (S n) `mod` 3 = 1).
Proof.
  assert (1 < 3) as Hbase by lia.
  assert (int64_exact 3) as Hex by (unfold int64_exact, int64_max; lia).
  split; [exact Hbase|]. split; [exact Hex|].
  exact (second_cycle_is_fibonacci 3 Hbase Hex).
Defined.

(** X19: the length of every returned cycle divides the length of the
    second returned cycle, the Pisano period of the modulus; no cycle is
    longer than that one. *)
Theorem cycle_lengths_divide_pisano (base : Z) (cycle pisano : list Pair) :
  1 < base → int64_exact base →
  cyclesPairs (computeModCycles base (Outputs [] [])) !! 1%nat = Some pisano →
  cycle ∈ cyclesPairs (computeModCycles base (Outputs [] [])) →
  (length cycle | length pisano)%nat ∧ (length cycle ≤ length pisano)%nat.
Proof.
  intros Hbase Hex Hpisano Hin.
  destruct (second_cycle_orbit base Hbase Hex)
    as (period & Hpos & Hcycle & Hnd & Hclose).
  rewrite Hcycle in Hpisano. injection Hpisano as <-.
  destruct (returned_cycle_orbit base cycle ltac:(lia) Hex Hin)
    as (start & len & Hstart & Hlen & -> & Hnd' & Hclose' & _).
  rewrite !length_iter_path.
  assert (len | period)%nat as Hdiv.
  { apply (period_divides base start); [done..|].
    destruct period as [|n]; [lia|].
    by apply period_of_01_fixes_all. }
  split; [done|]. apply Nat.divide_pos_le; [lia|done].
Qed.

Lemma cycle_lengths_divide_pisano_witness :
  let cycle : list Pair := [(0, 4); (4, 4); (4, 0)] in
  let pisano : list Pair :=
    [(0, 1); (1, 1); (1, 2); (2, 3); (3, 5); (5, 0);
     (0, 5); (5, 5); (5, 2); (2, 7); (7, 1); (1, 0)] in
  1 < 8 ∧ int64_exact 8 ∧
  cyclesPairs (computeModCycles 8 (Outputs [] [])) !! 1%nat = Some pisano ∧
  cycle ∈ cyclesPairs (computeModCycles 8 (Outputs [] [])) ∧
  (length cycle | length pisano)%nat ∧ (length cycle ≤ length pisano)%nat.
Proof.
  intros cycle pisano.
  assert (1 < 8) as Hbase by lia.
  assert (int64_exact 8) as Hex by (unfold int64_exact, int64_max; lia).
  assert (cyclesPairs (computeModCycles 8 (Outputs [] [])) !! 1%nat
          = Some pisano) as Hp by (by vm_compute).
  assert (cycle ∈ cyclesPairs (computeModCycles 8 (Outputs [] []))) as Hin.
  { vm_compute. do 4 apply list_elem_of_further. apply list_elem_of_here. }
  split; [exact Hbase|]. split; [exact Hex|]. split; [exact Hp|].
  split; [exact Hin|].
  exact (cycle_lengths_divide_pisano 8 cycle pisano Hbase Hex Hp Hin).
Defined.

(** * Canonicalization and deduplication inside the enumeration *)

(** X20: on what the scan finds, neither the canonical rotation nor the
    deduplication changes anything: every path is already in canonical form
    (the scan reaches a cycle first at its least state), and the returned
    cycles are exactly the traversal paths, in the order of their starts. *)
Theorem returned_cycles_are_paths (base : Z) :
  0 < base → int64_exact base →
  cyclesPairs (computeModCycles base (Outputs [] []))
  = (λ start, t_path (traverse base start)) <$> traversal_starts base
  ∧ Forall (λ start, canonicalCycle (t_path (traverse base start))
                     = t_path (traverse base start))
           (traversal_starts base)
  ∧ cyclesPairs (computeModCycles base (Outputs [] [])) = rawCycles (scan base).
Proof.
  intros Hpos Hex. rewrite computeModCycles_raw by done. simpl.
  rewrite scan_raw_paths by done. unfold traversal_paths, traversal_starts.
  destruct (scan_log_inv base Hpos Hex) as [_ _ _ _ _ _ Hent _].
  split_and!; [| |done].
  - rewrite <-list_fmap_compose. apply Forall_fmap_ext_1.
    eapply Forall_impl; [done|]. by intros e (_ & Hpath & _).
  - apply Forall_fmap. eapply Forall_impl; [done|].
    intros e (_ & Hpath & Hcanon & _). simpl. by rewrite <-Hpath.
Qed.

Lemma returned_cycles_are_paths_witness :
  0 < 3 ∧ int64_exact 3 ∧
  cyclesPairs (computeModCycles 3 (Outputs [] []))
  = (λ start, t_path (traverse 3 start)) <$> traversal_starts 3
  ∧ Forall (λ start, canonicalCycle (t_path (traverse 3 start))
                     = t_path (traverse 3 start))
           (traversal_starts 3)
  ∧ cyclesPairs (computeModCycles 3 (Outputs [] [])) = rawCycles (scan 3).
Proof.
  assert (0 < 3) as Hpos by lia.
  assert (int64_exact 3) as Hex by (unfold int64_exact, int64_max; lia).
  split; [exact Hpos|]. split; [exact Hex|].
  exact (returned_cycles_are_paths 3 Hpos Hex).
Defined.

(** X21: the key built for the deduplication is exact: two cycles have
    the same key exactly when they are the same list of pairs, for pairs of
    arbitrary integers. *)
Theorem cycle_key_exact (c1 c2 : list Pair) :
  cycle_key c1 = cycle_key c2 ↔ c1 = c2.
Proof. split; [apply cycle_key_inj|by intros ->]. Qed.

Lemma first_seen_from_spec seen raw :
  NoDup (first_seen_from seen raw)
  ∧ (∀ c, c ∈ first_seen_from seen raw ↔ c ∈ raw ∧ c ∉ seen)
  ∧ first_seen_from seen raw `sublist_of` raw.
Proof.
  revert seen. induction raw as [|cycle raw IH]; intros seen; simpl.
  { split_and!; [constructor| |done]. intros c. split; [by intros []%not_elem_of_nil|].
    by intros [[]%not_elem_of_nil _]. }
  case_bool_decide as Hseen.
  - destruct (IH seen) as (Hnd & Hel & Hsub). split_and!; [done| |by apply sublist_cons].
    intros c. rewrite Hel, elem_of_cons. split; [by intros [? ?]; auto|].
    intros [[->|?] ?]; done.
  - destruct (IH (cycle :: seen)) as (Hnd & Hel & Hsub).
    split_and!; [| |by apply sublist_skip].
    + constructor; [|done]. rewrite Hel. intros [_ []]. left.
    + intros c. rewrite !elem_of_cons, Hel, elem_of_cons. split.
      * intros [->|[? ?]]; [by auto|]. split; [by auto|]. by auto.
      * intros [[->|?] ?]; [by left|].
        destruct (decide (c = cycle)) as [->|]; [by left|right].
        split; [done|]. by intros [?|?].
Qed.

(** X22: the deduplication loop, on any list of cycles: the cycles it
    appends are pairwise distinct, they are exactly the cycles of the input,
    in the order of the input, the sequences are their projections, and a
    second pass over the result changes nothing. *)
Theorem dedup_removes_duplicates (raw : list (list Pair)) :
  let out := dedup raw (Outputs [] []) in
  NoDup (cyclesPairs out)
  ∧ (∀ cycle, cycle ∈ cyclesPairs out ↔ cycle ∈ raw)
  ∧ cyclesPairs out `sublist_of` raw
  ∧ sequences out = fmap (M := list) fst <$> cyclesPairs out
  ∧ dedup (cyclesPairs out) (Outputs [] []) = out.
Proof.
  cbv zeta. rewrite !dedup_first_seen. simpl. unfold first_seen.
  destruct (first_seen_from_spec [] raw) as (Hnd & Hel & Hsub).
  split_and!; [done| |done|done|].
  - intros cycle. rewrite Hel. split; [by intros [? _]|].
    intros ?. split; [done|apply not_elem_of_nil].
  - rewrite first_seen_from_NoDup; [done|done|].
    intros c _. apply not_elem_of_nil.
Qed.

(** * The program *)



(** * The printed text *)

Lemma foldl_indices {A} (F : string → nat → string) (G : string → A → string)
    (v rest : list A) out :
  (∀ out j x, (v ++ rest) !! j = Some x → (j < length v)%nat →
              F out j = G out x) →
  foldl F out (seq 0 (length v)) = foldl G out v.
Proof.
  induction v as [|y v IH] using rev_ind; intros HFG; [done|].
  rewrite length_app. simpl. rewrite Nat.add_1_r, seq_S, !foldl_snoc. simpl.
  rewrite IH.
  - apply HFG; [|rewrite length_app; simpl; lia].
    rewrite <-app_assoc. by apply list_lookup_middle.
  - intros out' j x Hj Hlt. apply HFG; [|rewrite length_app; simpl; lia].
    rewrite <-app_assoc. rewrite lookup_app_l by done.
    by rewrite lookup_app_l in Hj by done.
Qed.

Lemma concat_cons_cons sep (x y : string) l :
  String.concat sep (x :: y :: l) = x +:+ sep +:+ String.concat sep (y :: l).
Proof. done. Qed.

Lemma foldl_joined {A} (item : A → string) (s : string) (v : list A) x out :
  foldl (λ out y, out +:+ item y +:+ s) out v +:+ item x
  = out +:+ String.concat s (item <$> (v ++ [x])).
Proof.
  revert out. induction v as [|y v IH]; intros out; [done|].
  rewrite <-app_comm_cons, fmap_cons. cbn [foldl].
  rewrite IH. destruct (item <$> v ++ [x]) as [|z l] eqn:Heq.
  { apply (f_equal length) in Heq. rewrite length_fmap, length_app in Heq.
    simpl in Heq. lia. }
  by rewrite concat_cons_cons, !string_app_assoc.
Qed.

(** A printing loop writes its items joined by the separator: the
    separator follows every item but the last. *)
Lemma print_loop_joined {A} (item : A → string) (sep after : string)
    (v : list A) out :
  fits_size_t v →
  print_loop item sep after v out
  = out +:+ String.concat (sep +:+ after) (item <$> v)
        +:+ (match v with [] => "" | _ => after end).
Proof.
  unfold fits_size_t, size_t_modulus. intros Hsize.
  destruct v as [|y v] using rev_ind.
  { unfold print_loop. simpl. by rewrite string_app_nil_r. }
  clear IHv. unfold print_loop. rewrite length_app in *. simpl in *.
  rewrite Nat.add_1_r, seq_S, foldl_snoc. simpl.
  assert (size_minus_one (S (length v)) = Z.of_nat (length v)) as Hlast.
  { unfold size_minus_one, size_t_modulus. rewrite Z.mod_small; lia. }
  rewrite Hlast, list_lookup_middle by done.
  rewrite bool_decide_eq_false_2 by lia.
  rewrite (foldl_indices _ (λ out y, out +:+ item y +:+ sep +:+ after) v [y]).
  - rewrite string_app_nil_l, <-(string_app_assoc _ (item y) after).
    rewrite (foldl_joined item (sep +:+ after)), string_app_assoc.
    by destruct v.
  - intros out' j x Hj Hlt. rewrite Hj.
    by rewrite bool_decide_eq_true_2 by lia.
Qed.

(** X24: [outputJSON] prints well-separated arrays: each sequence and
    each cycle is written as its items joined by [", "] between brackets,
    the rows of the two arrays are joined by a comma and a line break, and no
    separator follows a last item, also when an array is empty. *)
Theorem outputJSON_text_joined (base : Z) (sequences : list (list Z))
    (cyclesPairs : list (list Pair)) :
  fits_size_t sequences → Forall fits_size_t sequences →
  fits_size_t cyclesPairs → Forall fits_size_t cyclesPairs →
  outputJSON_text base sequences cyclesPairs
  = "{" +:+ endl
    +:+ "  " +:+ dquote +:+ "base" +:+ dquote +:+ ": "
    +:+ to_string base +:+ "," +:+ endl
    +:+ "  " +:+ dquote +:+ "sequence_count" +:+ dquote +:+ ": "
    +:+ to_string (Z.of_nat (length sequences)) +:+ "," +:+ endl
    +:+ "  " +:+ dquote +:+ "sequences" +:+ dquote +:+ ": [" +:+ endl
    +:+ joined_rows
          ((λ sequence,
              "    [" +:+ String.concat ", " (to_string <$> sequence) +:+ "]")
             <$> sequences)
    +:+ "  ]," +:+ endl
    +:+ "  " +:+ dquote +:+ "cycles_pairs" +:+ dquote +:+ ": [" +:+ endl
    +:+ joined_rows
          ((λ cycle,
              "    [" +:+ String.concat ", " (print_pair <$> cycle) +:+ "]")
             <$> cyclesPairs)
    +:+ "  ]" +:+ endl +:+ "}" +:+ endl.
Proof.
  intros Hs Hss Hc Hcs. unfold outputJSON_text, joined_rows. cbv zeta.
  rewrite !print_loop_joined by done.
  assert (print_sequence <$> sequences
          = (λ sequence,
               "    [" +:+ String.concat ", " (to_string <$> sequence) +:+ "]")
              <$> sequences) as ->.
  { apply Forall_fmap_ext_1. eapply Forall_impl; [exact Hss|].
    intros sequence Hfit. unfold print_sequence.
    rewrite print_loop_joined by done.
    rewrite string_app_nil_r. destruct sequence; by rewrite ?string_app_nil_r. }
  assert (print_cycle <$> cyclesPairs
          = (λ cycle,
               "    [" +:+ String.concat ", " (print_pair <$> cycle) +:+ "]")
              <$> cyclesPairs) as ->.
  { apply Forall_fmap_ext_1. eapply Forall_impl; [exact Hcs|].
    intros cycle Hfit. unfold print_cycle.
    rewrite print_loop_joined by done.
    rewrite string_app_nil_r. destruct cycle; by rewrite ?string_app_nil_r. }
  destruct sequences, cyclesPairs; by rewrite !string_app_assoc.
Qed.

Lemma outputJSON_text_joined_witness :
  let sequences : list (list Z) := [[0]; [0; 1; 1]] in
  let cyclesPairs : list (list Pair) := [[(0, 0)]; [(0, 1); (1, 1); (1, 0)]] in
  fits_size_t sequences ∧ Forall fits_size_t sequences ∧
  fits_size_t cyclesPairs ∧ Forall fits_size_t cyclesPairs ∧
  outputJSON_text 2 sequences cyclesPairs
  = "{" +:+ endl
    +:+ "  " +:+ dquote +:+ "base" +:+ dquote +:+ ": "
    +:+ to_string 2 +:+ "," +:+ endl
    +:+ "  " +:+ dquote +:+ "sequence_count" +:+ dquote +:+ ": "
    +:+ to_string (Z.of_nat (length sequences)) +:+ "," +:+ endl
    +:+ "  " +:+ dquote +:+ "sequences" +:+ dquote +:+ ": [" +:+ endl
    +:+ joined_rows
          ((λ sequence,
              "    [" +:+ String.concat ", " (to_string <$> sequence) +:+ "]")
             <$> sequences)
    +:+ "  ]," +:+ endl
    +:+ "  " +:+ dquote +:+ "cycles_pairs" +:+ dquote +:+ ": [" +:+ endl
    +:+ joined_rows
          ((λ cycle,
              "    [" +:+ String.concat ", " (print_pair <$> cycle) +:+ "]")
             <$> cyclesPairs)
    +:+ "  ]" +:+ endl +:+ "}" +:+ endl.
Proof.
  intros sequences cyclesPairs.
  assert (∀ A (v : list A), (length v < 10)%nat → fits_size_t v) as Hfit.
  { intros A v Hv. unfold fits_size_t, size_t_modulus. lia. }
  assert (fits_size_t sequences) as Hs by (apply Hfit; simpl; lia).
  assert (Forall fits_size_t sequences) as Hss
    by (repeat constructor; apply Hfit; simpl; lia).
  assert (fits_size_t cyclesPairs) as Hc by (apply Hfit; simpl; lia).
  assert (Forall fits_size_t cyclesPairs) as Hcs
    by (repeat constructor; apply Hfit; simpl; lia).
  split; [exact Hs|]. split; [exact Hss|]. split; [exact Hc|].
  split; [exact Hcs|].
  exact (outputJSON_text_joined 2 sequences cyclesPairs Hs Hss Hc Hcs).
Defined.

(** * The iteration cap *)

Section cap.
Variable base : Z.
Hypothesis base_pos : 0 < base.
Variable s : Pair.
Hypothesis s_in_range : in_range base s.
Variable period : nat.
Hypothesis period_pos : (0 < period)%nat.
Hypothesis period_NoDup : NoDup (iter_path base s period).
Hypothesis period_closes : iter_state base s period = s.

Lemma seen_inv_fresh n seenIndex :
  seen_inv base s n seenIndex → (n < period)%nat →
  seenIndex !! iter_state base s n = None.
Proof.
  intros Hseen Hn.
  destruct (seenIndex !! iter_state base s n) as [i|] eqn:Hlook; [|done].
  apply Hseen in Hlook as [Hi Heq].
  assert (i = n); [|lia].
  eapply NoDup_lookup; [exact period_NoDup| |].
  - apply lookup_iter_path. lia.
  - rewrite Heq. by apply lookup_iter_path.
Qed.

Lemma seen_inv_step n seenIndex :
  seen_inv base s n seenIndex → (n < period)%nat →
  seen_inv base s (S n) (<[iter_state base s n := n]> seenIndex).
Proof.
  intros Hseen Hn p i.
  destruct (decide (p = iter_state base s n)) as [->|Hne].
  - rewrite lookup_insert_eq. split.
    + intros [= <-]. split; [lia|done].
    + intros [Hi Heq]. f_equal.
      eapply NoDup_lookup; [exact period_NoDup| |].
      * by apply lookup_iter_path.
      * rewrite <-Heq. apply lookup_iter_path. lia.
  - rewrite lookup_insert_ne by done. rewrite (Hseen p i). split.
    + intros [? ?]. split; [lia|done].
    + intros [Hi Heq]. split; [|done].
      destruct (decide (i = n)) as [->|]; [done|lia].
Qed.

(** With a cap that ends the loop before the orbit closes, no cycle is
    found and the path holds as many states as the cap allows. *)
Lemma traverse_loop_capped remaining n seenIndex :
  seen_inv base s n seenIndex → (n + remaining ≤ period)%nat →
  traverse_loop base remaining n (iter_path base s n) seenIndex
    (iter_state base s n)
  = Traversal (iter_path base s (n + remaining)) None (n + remaining).
Proof.
  revert n seenIndex.
  induction remaining as [|remaining IH]; intros n seenIndex Hseen Hle.
  { simpl. by rewrite Nat.add_0_r. }
  simpl. rewrite (seen_inv_fresh n seenIndex) by (done || lia).
  rewrite length_iter_path, <-iter_path_S.
  rewrite (IH (S n)); [|apply seen_inv_step; [done|lia]|lia].
  by replace (S n + remaining)%nat with (n + S remaining)%nat by lia.
Qed.

(** With a larger cap the loop closes the orbit. *)
Lemma traverse_loop_uncapped remaining n seenIndex :
  seen_inv base s n seenIndex → (n ≤ period)%nat →
  (period < n + remaining)%nat →
  traverse_loop base remaining n (iter_path base s n) seenIndex
    (iter_state base s n)
  = Traversal (iter_path base s period) (Some (iter_path base s period)) period.
Proof.
  revert n seenIndex.
  induction remaining as [|remaining IH]; intros n seenIndex Hseen Hle Hfuel;
    [lia|].
  simpl. destruct (decide (n = period)) as [->|Hne].
  - assert (seenIndex !! iter_state base s period = Some 0%nat) as ->.
    { apply Hseen. split; [done|]. by rewrite period_closes. }
    done.
  - rewrite (seen_inv_fresh n seenIndex) by (done || lia).
    rewrite length_iter_path, <-iter_path_S.
    apply (IH (S n)); [apply seen_inv_step; [done|lia]|lia|lia].
Qed.
End cap.

(** X25: what the cap of the [while] loop does.  From a start of the
    state space with orbit period [period], the loop finds the cycle exactly
    when it may run more than [period] iterations; with a smaller cap it
    stops without a cycle, and the path it leaves (which the caller marks
    visited) holds the first [cap] states of the trajectory. *)
Theorem traverse_loop_cap (base : Z) (start : Pair) :
  0 < base → in_range base start →
  ∃ period,
    (0 < period ≤ Z.to_nat base * Z.to_nat base)%nat
    ∧ (∀ cap, (period < cap)%nat →
         traverse_loop base cap 0 [] ∅ start
         = Traversal (iter_path base start period)
                     (Some (iter_path base start period)) period)
    ∧ (∀ cap, (cap ≤ period)%nat →
         traverse_loop base cap 0 [] ∅ start
         = Traversal (iter_path base start cap) None cap).
Proof.
  intros Hpos Hstart.
  assert (seen_inv base start 0 ∅) as Hseen.
  { intros p i. rewrite lookup_empty. split; [done|]. intros [? _]. lia. }
  destruct (traverse_loop_closes base Hpos start Hstart
              (S (Z.to_nat base * Z.to_nat base)) 0 ∅)
    as (period & Hperiod & Hnd & Hclose & _);
    [apply NoDup_nil_2|done|lia|].
  exists period. split; [done|]. split.
  - intros cap Hcap.
    apply (traverse_loop_uncapped base start period); first [done | lia].
  - intros cap Hcap.
    apply (traverse_loop_capped base start period); first [done | lia].
Qed.

Lemma traverse_loop_cap_witness :
  0 < 3 ∧ in_range 3 (0, 1) ∧
  ∃ period,
    (0 < period ≤ Z.to_nat 3 * Z.to_nat 3)%nat
    ∧ (∀ cap, (period < cap)%nat →
         traverse_loop 3 cap 0 [] ∅ (0, 1)
         = Traversal (iter_path 3 (0, 1) period)
                     (Some (iter_path 3 (0, 1) period)) period)
    ∧ (∀ cap, (cap ≤ period)%nat →
         traverse_loop 3 cap 0 [] ∅ (0, 1)
         = Traversal (iter_path 3 (0, 1) cap) None cap).
Proof.
  assert (0 < 3) as Hpos by lia.
  assert (in_range 3 (0, 1)) as Hstart by (unfold in_range; simpl; lia).
  split; [exact Hpos|]. split; [exact Hstart|].
  exact (traverse_loop_cap 3 (0, 1) Hpos Hstart).
Defined.
